(** * Argument streams of the redis package (args.go)

    A shallow embedding of [Args], [argsError], [argsReader],
    [byteArgsReader], [ParseArgs] and the helpers [Int], [Int64] and
    [String], together with the parts of [reflect], [objconv] and
    [objconv/resp] that args.go calls.  Mutable receivers become explicit
    state passing: every method takes the receiver and returns the updated
    receiver next to its Go result.  Method calls are atomic: the sync.Once
    of a reader is the flag that says whether its function has run, and the
    done channel is the list of the values sent on it.  [List], which reads
    from objconv's in-memory value parser instead of a RESP parser, is not
    covered.  The counters of the decoder are unbounded integers: they stay
    between 0 and the announced count of the stream ([step_within]), which
    fits Go's int. *)

From Stdlib Require Import ZArith List String Ascii Bool Lia.
From Stdlib.Strings Require Import Byte.
Import ListNotations.
Open Scope Z_scope.

(** Go's [error] interface; [option error] is an [error] that may be nil. *)
Inductive error : Type :=
| End                                   (* objconv.End *)
| UnexpectedEOF                         (* the input stops inside a value *)
| RespError (msg : string)              (* a decoded RESP error value *)
| TypeConversionError (from to : string)(* objconv: cannot decode from into to *)
| Errorf (msg : string).                (* fmt.Errorf, strconv and objutil errors *)

Definition isNil {A : Type} (e : option A) : bool :=
  match e with None => true | Some _ => false end.

(** ** package reflect *)
Module reflect.

Inductive Kind : Type :=
| Invalid | Bool
| Int | Int8 | Int16 | Int32 | Int64
| Uint | Uint8 | Uint16 | Uint32 | Uint64 | Uintptr
| Float32 | Float64 | Complex64 | Complex128
| Array | Chan | Func | Interface | Map | Ptr | Slice | String | Struct
| UnsafePointer.

Definition Kind_eqb (a b : Kind) : bool :=
  match a, b with
  | Invalid, Invalid | Bool, Bool | Int, Int | Int8, Int8 | Int16, Int16
  | Int32, Int32 | Int64, Int64 | Uint, Uint | Uint8, Uint8 | Uint16, Uint16
  | Uint32, Uint32 | Uint64, Uint64 | Uintptr, Uintptr | Float32, Float32
  | Float64, Float64 | Complex64, Complex64 | Complex128, Complex128
  | Array, Array | Chan, Chan | Func, Func | Interface, Interface | Map, Map
  | Ptr, Ptr | Slice, Slice | String, String | Struct, Struct
  | UnsafePointer, UnsafePointer => true
  | _, _ => false
  end.

(** What args.go asks of a [reflect.Type]: its kind, the kind of its element
    type (read for slices only) and its name as printed by [%s]. *)
Record rtype : Type := {
  Kind_of : Kind;
  Elem_Kind : Kind;
  String_of : string
}.

End reflect.

(** ** package objconv: value types *)
Module objconv.

Inductive Type_ : Type :=
| Unknown | Nil | Bool | Int | Uint | Float | String | Bytes | Time
| Duration | Error | Array | Map.

Definition Type_eqb (a b : Type_) : bool :=
  match a, b with
  | Unknown, Unknown | Nil, Nil | Bool, Bool | Int, Int | Uint, Uint
  | Float, Float | String, String | Bytes, Bytes | Time, Time
  | Duration, Duration | Error, Error | Array, Array | Map, Map => true
  | _, _ => false
  end.

Definition Type_name (t : Type_) : string :=
  match t with
  | Unknown => "unknown" | Nil => "nil" | Bool => "bool" | Int => "int"
  | Uint => "uint" | Float => "float" | String => "string"
  | Bytes => "bytes" | Time => "time" | Duration => "duration"
  | Error => "error" | Array => "array" | Map => "map"
  end%string.

End objconv.

(** ** package objconv/resp: the parser over a RESP token sequence *)
Module resp.

(** Modelled from the spec: the RESP codec is an external collaborator that
    is not under src/ ("parse next token type", "decode next token into a
    typed value"); its values are simple string, error, integer, bulk
    string and array with declared element count.  The input of a parser is
    the sequence of RESP tokens still unread on the connection. *)
Inductive token : Type :=
| SimpleString (s : string)            (* +OK *)
| Error (msg : string)                 (* -ERR ... *)
| Integer (i : Z)                      (* :42 *)
| BulkString (b : list byte)           (* $3 foo *)
| Null                                 (* $-1 and *-1 *)
| ArrayHeader (n : nat).               (* *n, followed by n values *)

Definition Parser : Type := list token.

Definition type_of (t : token) : objconv.Type_ :=
  match t with
  | SimpleString _ => objconv.String
  | Error _ => objconv.Error
  | Integer _ => objconv.Int
  | BulkString _ => objconv.Bytes
  | Null => objconv.Nil
  | ArrayHeader _ => objconv.Array
  end.

(** Modelled from the spec: "parse next token type"; [ParseType] looks at
    the next token and consumes nothing. *)
Definition ParseType (p : Parser) : objconv.Type_ * option error :=
  match p with
  | [] => (objconv.Unknown, Some UnexpectedEOF)
  | t :: _ => (type_of t, None)
  end.

Definition ParseArrayBegin (p : Parser) : Parser * Z * option error :=
  match p with
  | ArrayHeader n :: r => (r, Z.of_nat n, None)
  | [] => (p, 0, Some UnexpectedEOF)
  | t :: _ =>
      (p, 0, Some (TypeConversionError (objconv.Type_name (type_of t)) "array"))
  end.

(** RESP has no separator between and no terminator after array elements. *)
Definition ParseArrayNext (p : Parser) (n : Z) : Parser * option error :=
  (p, None).

Definition ParseArrayEnd (p : Parser) (n : Z) : Parser * option error :=
  (p, None).

(** Skipping [k] complete values, nested arrays included. *)
Fixpoint skip (p : Parser) (k : nat) {struct p} : option Parser :=
  match k with
  | O => Some p
  | S k' =>
      match p with
      | [] => None
      | ArrayHeader n :: r => skip r (k' + n)
      | _ :: r => skip r k'
      end
  end.

End resp.

(** ** Values stored through a destination pointer *)

(** What the [reflect.Value] setters leave in the destination variable;
    [F] is Go's float64. *)
Inductive Value (F : Type) : Type :=
| VBool (x : bool)
| VInt (x : Z)
| VUint (x : Z)
| VFloat (x : F)
| VString (x : string)
| VBytes (x : list byte).

Arguments VBool {F} x.
Arguments VInt {F} x.
Arguments VUint {F} x.
Arguments VFloat {F} x.
Arguments VString {F} x.
Arguments VBytes {F} x.

(** Functions of other packages that args.go calls and whose bodies are not
    part of this repository.  They are taken as parameters: nothing below
    depends on what they compute.

    - [objutil_ParseInt] is objutil.ParseInt, [strconv_ParseUint s] is
      strconv.ParseUint(s, 10, 64) and [strconv_ParseFloat s] is
      strconv.ParseFloat(s, 64);
    - [float32_round] is the conversion float32(x) done by SetFloat on a
      float32 variable;
    - [decodeValue t p] is objconv's decoding of the next value of [p] into a
      caller's variable of type [t]: the parser it leaves, its error and the
      value it stored, if any. *)
Class Extern : Type := {
  float64 : Type;
  float32_round : float64 -> float64;
  objutil_ParseInt : list byte -> Z * option error;
  strconv_ParseUint : string -> Z * option error;
  strconv_ParseFloat : string -> float64 * option error;
  decodeValue : reflect.rtype -> resp.Parser ->
                resp.Parser * option error * option (Value float64)
}.

Section Streams.

Context {ext : Extern}.

(** ** objconv.Decoder and objconv.StreamDecoder *)

(** The destinations args.go hands to [Decode]: nil (discard), [&args.err],
    [&args.b], or the caller's pointer to a variable of type [t]. *)
Inductive target : Type :=
| ToNil
| ToError
| ToBytes
| ToValue (t : reflect.rtype).

(** What a [Decode] stored in its destination. *)
Inductive written : Type :=
| WNothing
| WError (e : error)
| WBytes (b : option (list byte))
| WValue (v : Value float64).

Definition conversionError (t : resp.token) (to : string) : error :=
  TypeConversionError (objconv.Type_name (resp.type_of t)) to.

(** Modelled from the spec: objconv.Decoder.Decode, which is not under
    src/, is the codec's "decode next token into a typed value".  A nil
    destination discards one complete value; an error destination takes a
    RESP error; a byte slice takes a bulk or simple string (nil for the null
    value); any other destination goes through [decodeValue]. *)
Definition Decoder_Decode (v : target) (p : resp.Parser)
  : resp.Parser * option error * written :=
  match v with
  | ToNil =>
      match resp.skip p 1 with
      | Some r => (r, None, WNothing)
      | None => ([], Some UnexpectedEOF, WNothing)
      end
  | ToError =>
      match p with
      | resp.Error msg :: r => (r, None, WError (RespError msg))
      | [] => (p, Some UnexpectedEOF, WNothing)
      | t :: _ => (p, Some (conversionError t "error"), WNothing)
      end
  | ToBytes =>
      match p with
      | resp.BulkString x :: r => (r, None, WBytes (Some x))
      | resp.SimpleString s :: r =>
          (r, None, WBytes (Some (list_byte_of_string s)))
      | resp.Null :: r => (r, None, WBytes None)
      | [] => (p, Some UnexpectedEOF, WNothing)
      | t :: _ => (p, Some (conversionError t "bytes"), WNothing)
      end
  | ToValue t =>
      let '(r, e, w) := decodeValue t p in
      (r, e, match w with Some x => WValue x | None => WNothing end)
  end.

Record StreamDecoder : Type := {
  sd_Parser : resp.Parser;
  sd_err : option error;
  sd_typ : objconv.Type_;
  sd_cnt : Z;
  sd_max : Z
}.

(** [objconv.StreamDecoder{Parser: p}] *)
Definition newStreamDecoder (p : resp.Parser) : StreamDecoder :=
  {| sd_Parser := p; sd_err := None; sd_typ := objconv.Unknown;
     sd_cnt := 0; sd_max := 0 |}.

(** Modelled from the spec: objconv.StreamDecoder is not under src/.
    [init] reads the type of the stream; an array announces its element
    count ("array (with declared element count, enabling Len() without full
    buffering)"), any other value is a stream of one. *)
Definition StreamDecoder_init (d : StreamDecoder)
  : StreamDecoder * option error :=
  let '(typ, err) := resp.ParseType (sd_Parser d) in
  let '(p, max, err) :=
    match err with
    | Some e => (sd_Parser d, 0, Some e)
    | None =>
        match typ with
        | objconv.Array => resp.ParseArrayBegin (sd_Parser d)
        | _ => (sd_Parser d, 1, None)
        end
    end in
  ({| sd_Parser := p; sd_err := err; sd_typ := typ;
      sd_cnt := sd_cnt d; sd_max := max |}, err).

(** Modelled from the spec: objconv.StreamDecoder.Len, not under src/, is
    the number of values remaining to be read, zero once an error occurred.
    The first call on a fresh decoder reads the header of the stream. *)
Definition StreamDecoder_Len (d : StreamDecoder) : StreamDecoder * Z :=
  match sd_err d with
  | Some _ => (d, 0)
  | None =>
      if objconv.Type_eqb (sd_typ d) objconv.Unknown then
        let '(d1, e) := StreamDecoder_init d in
        match e with
        | Some _ => (d1, 0)
        | None => (d1, sd_max d1 - sd_cnt d1)
        end
      else (d, sd_max d - sd_cnt d)
  end.

(** Modelled from the spec: objconv.StreamDecoder.Err, not under src/, is
    the last error of [Decode], nil when the stream reached its natural
    end. *)
Definition StreamDecoder_Err (d : StreamDecoder) : option error :=
  match sd_err d with
  | Some End => None
  | e => e
  end.

(** Modelled from the spec: objconv.StreamDecoder.Decode, not under src/,
    returns the recorded error if there is one; otherwise it reads the
    header if that is still to do, ends the stream when all announced values
    were read and decodes one value otherwise.  Its error, if any, is
    recorded in the decoder. *)
Definition StreamDecoder_Decode (v : target) (d : StreamDecoder)
  : StreamDecoder * option error * written :=
  match sd_err d with
  | Some e => (d, Some e, WNothing)
  | None =>
      let cnt := sd_cnt d in
      let '(d1, err, max) :=
        match sd_typ d with
        | objconv.Unknown =>
            let '(d1, e) := StreamDecoder_init d in (d1, e, sd_max d1)
        | objconv.Array =>
            if cnt =? sd_max d then
              let '(p, e) := resp.ParseArrayEnd (sd_Parser d) cnt in
              (d, e, sd_max d)
            else if negb (cnt =? 0) then
              let '(p, e) := resp.ParseArrayNext (sd_Parser d) cnt in
              (d, e, sd_max d)
            else (d, None, sd_max d)
        | _ => (d, None, sd_max d)
        end in
      let '(p, err, cnt, max, w) :=
        match err with
        | Some e => (sd_Parser d1, Some e, cnt, max, WNothing)
        | None =>
            if cnt =? max then (sd_Parser d1, Some End, cnt, max, WNothing)
            else
              let '(p, e, w) := Decoder_Decode v (sd_Parser d1) in
              match e with
              | None => (p, None, cnt + 1, max, w)
              | Some End => (p, Some End, cnt + 1, cnt + 1, w)
              | Some e' =>
                  if (max <? 0)
                     && isNil (snd (resp.ParseArrayEnd p cnt))
                  then (p, Some End, cnt, max, w)
                  else (p, Some e', cnt, max, w)
              end
        end in
      ({| sd_Parser := p; sd_err := err; sd_typ := sd_typ d1;
          sd_cnt := cnt; sd_max := max |}, err, w)
  end.

(** ** args.go: the Args interface *)

(** A destination [dst interface{}]: nil, or a pointer to a variable of the
    given type ("dst, which must be a pointer"). *)
Definition dst : Type := option reflect.rtype.

(** [Next] also returns what it stored in the destination. *)
Class Args (A : Type) : Type := {
  Close : A -> A * option error;
  Len : A -> A * Z;
  Next : dst -> A -> A * bool * option (Value float64)
}.

(** ** ParseArgs, Int, Int64, String *)

Fixpoint ParseArgs_loop {A : Type} `{Args A} (args : A) (dsts : list dst)
  : A * list (option (Value float64)) :=
  match dsts with
  | [] => (args, [])
  | d :: rest =>
      let '(args1, ok, w) := Next d args in
      if negb ok then (args1, [w])
      else let '(args2, ws) := ParseArgs_loop args1 rest in (args2, w :: ws)
  end.

(** The receiver after the call, the values stored in the destinations that
    were visited, and the error. *)
Definition ParseArgs {A : Type} `{Args A} (args : A) (dsts : list dst)
  : A * list (option (Value float64)) * option error :=
  let '(args1, ws) := ParseArgs_loop args dsts in
  let '(args2, e) := Close args1 in
  (args2, ws, e).

Definition type_int : reflect.rtype :=
  {| reflect.Kind_of := reflect.Int; reflect.Elem_Kind := reflect.Invalid;
     reflect.String_of := "int" |}.

Definition type_int64 : reflect.rtype :=
  {| reflect.Kind_of := reflect.Int64; reflect.Elem_Kind := reflect.Invalid;
     reflect.String_of := "int64" |}.

Definition type_string : reflect.rtype :=
  {| reflect.Kind_of := reflect.String; reflect.Elem_Kind := reflect.Invalid;
     reflect.String_of := "string" |}.

Definition Int {A : Type} `{Args A} (args : A) : A * Z * option error :=
  let '(args1, ws, e) := ParseArgs args [Some type_int] in
  (args1, match ws with [Some (VInt i)] => i | _ => 0 end, e).

Definition Int64 {A : Type} `{Args A} (args : A) : A * Z * option error :=
  let '(args1, ws, e) := ParseArgs args [Some type_int64] in
  (args1, match ws with [Some (VInt i)] => i | _ => 0 end, e).

Definition String {A : Type} `{Args A} (args : A)
  : A * string * option error :=
  let '(args1, ws, e) := ParseArgs args [Some type_string] in
  (args1, match ws with [Some (VString s)] => s | _ => EmptyString end, e).

(** ** argsError *)

Record argsError : Type := { ae_err : option error }.

Definition newArgsError (e : option error) : argsError := {| ae_err := e |}.

Definition argsError_Close (args : argsError) : argsError * option error :=
  (args, ae_err args).

Definition argsError_Len (args : argsError) : argsError * Z := (args, 0).

Definition argsError_Next (val : dst) (args : argsError)
  : argsError * bool * option (Value float64) :=
  (args, false, None).

(** ** argsReader *)

(** [once] is the state of the sync.Once (true once its function has run);
    [done] is nil ([None]) or the channel, given by the values sent on it so
    far, oldest first. *)
Record argsReader : Type := {
  dec : StreamDecoder;
  err : option error;
  once : bool;
  done : option (list (option error))
}.

Definition newArgsReader (p : resp.Parser)
  (done : option (list (option error))) : argsReader :=
  {| dec := newStreamDecoder p; err := None; once := false; done := done |}.

(** [for args.dec.Decode(nil) == nil {}].  Every round that goes on consumes
    input, so the loop is run with one round more than there are tokens left
    ([discard_ends] shows that this is enough). *)
Fixpoint discard (rounds : nat) (d : StreamDecoder) : StreamDecoder :=
  match rounds with
  | O => d
  | S k =>
      let '(d1, e, _) := StreamDecoder_Decode ToNil d in
      match e with
      | None => discard k d1
      | Some _ => d1
      end
  end.

Definition argsReader_Close (args : argsReader)
  : argsReader * option error :=
  if once args then (args, err args)
  else
    let d1 := discard (S (List.length (sd_Parser (dec args)))) (dec args) in
    let e := StreamDecoder_Err d1 in
    let done1 :=
      match done args with
      | Some sent => Some (sent ++ [e])
      | None => None
      end in
    let err1 := match err args with None => e | Some x => Some x end in
    ({| dec := d1; err := err1; once := true; done := done1 |}, err1).

Definition argsReader_Len (args : argsReader) : argsReader * Z :=
  match err args with
  | Some _ => (args, 0)
  | None =>
      let '(d1, n) := StreamDecoder_Len (dec args) in
      ({| dec := d1; err := err args; once := once args;
          done := done args |}, n)
  end.

Definition argsReader_Next (val : target) (args : argsReader)
  : argsReader * bool * written :=
  match err args with
  | Some _ => (args, false, WNothing)
  | None =>
      let '(d1, n) := StreamDecoder_Len (dec args) in
      if negb (n =? 0)
         && objconv.Type_eqb (fst (resp.ParseType (sd_Parser d1)))
                             objconv.Error
      then
        let '(d2, _, w) := StreamDecoder_Decode ToError d1 in
        ({| dec := d2;
            err := match w with WError e => Some e | _ => None end;
            once := once args; done := done args |}, false, WNothing)
      else
        let '(d2, e, w) := StreamDecoder_Decode val d1 in
        ({| dec := d2; err := None; once := once args;
            done := done args |}, isNil e, w)
  end.

(** ** byteArgsReader *)

(** [b] is nil ([None]) or a slice; its backing array [a] only provides the
    storage and has no content of its own to track. *)
Record byteArgsReader : Type := {
  embedded : argsReader;
  b : option (list byte)
}.

Definition newByteArgsReader (p : resp.Parser)
  (done : option (list (option error))) : byteArgsReader :=
  {| embedded := newArgsReader p done; b := None |}.

Definition bytes_of (x : option (list byte)) : list byte :=
  match x with Some l => l | None => [] end.

(** Width of the variable that SetInt and SetUint store into; int, uint and
    uintptr are 64 bits wide. *)
Definition bits (k : reflect.Kind) : Z :=
  match k with
  | reflect.Int8 | reflect.Uint8 => 8
  | reflect.Int16 | reflect.Uint16 => 16
  | reflect.Int32 | reflect.Uint32 => 32
  | _ => 64
  end.

Definition SetInt (t : reflect.rtype) (x : Z) : Value float64 :=
  let m := 2 ^ bits (reflect.Kind_of t) in
  VInt ((x + m / 2) mod m - m / 2).

Definition SetUint (t : reflect.rtype) (x : Z) : Value float64 :=
  VUint (x mod 2 ^ bits (reflect.Kind_of t)).

Definition SetFloat (t : reflect.rtype) (x : float64) : Value float64 :=
  if reflect.Kind_eqb (reflect.Kind_of t) reflect.Float32
  then VFloat (float32_round x) else VFloat x.

(** The parse functions return the value stored in the destination (none on
    error) and the error. *)
Definition parseBool (x : option (list byte)) (t : reflect.rtype)
  : option (Value float64) * option error :=
  let '(i, e) := objutil_ParseInt (bytes_of x) in
  match e with
  | Some e' => (None, Some e')
  | None => (Some (VBool (negb (i =? 0))), None)
  end.

Definition parseInt (x : option (list byte)) (t : reflect.rtype)
  : option (Value float64) * option error :=
  let '(i, e) := objutil_ParseInt (bytes_of x) in
  match e with
  | Some e' => (None, Some e')
  | None => (Some (SetInt t i), None)
  end.

Definition parseUint (x : option (list byte)) (t : reflect.rtype)
  : option (Value float64) * option error :=
  let '(u, e) := strconv_ParseUint (string_of_list_byte (bytes_of x)) in
  match e with
  | Some e' => (None, Some e')
  | None => (Some (SetUint t u), None)
  end.

Definition parseFloat (x : option (list byte)) (t : reflect.rtype)
  : option (Value float64) * option error :=
  let '(f, e) := strconv_ParseFloat (string_of_list_byte (bytes_of x)) in
  match e with
  | Some e' => (None, Some e')
  | None => (Some (SetFloat t f), None)
  end.

Definition parseString (x : option (list byte)) (t : reflect.rtype)
  : option (Value float64) * option error :=
  (Some (VString (string_of_list_byte (bytes_of x))), None).

Definition parseBytes (x : option (list byte)) (t : reflect.rtype)
  : option (Value float64) * option error :=
  (Some (VBytes (bytes_of x)), None).

Definition unsupported (t : reflect.rtype) : error :=
  Errorf ("unsupported output type for value in argument of a redis command: "
          ++ reflect.String_of t).

Definition parse (x : option (list byte)) (t : reflect.rtype)
  : option (Value float64) * option error :=
  match reflect.Kind_of t with
  | reflect.Bool => parseBool x t
  | reflect.Int | reflect.Int8 | reflect.Int16 | reflect.Int32
  | reflect.Int64 => parseInt x t
  | reflect.Uint | reflect.Uint8 | reflect.Uint16 | reflect.Uint32
  | reflect.Uint64 | reflect.Uintptr => parseUint x t
  | reflect.Float32 | reflect.Float64 => parseFloat x t
  | reflect.String => parseString x t
  | reflect.Slice =>
      if reflect.Kind_eqb (reflect.Elem_Kind t) reflect.Uint8
      then parseBytes x t
      else (None, Some (unsupported t))
  | _ => (None, Some (unsupported t))
  end.

Definition byteArgsReader_Next (val : dst) (args : byteArgsReader)
  : byteArgsReader * bool * option (Value float64) :=
  let b0 : option (list byte) :=
    match b args with
    | None => Some []
    | Some _ => Some []
    end in
  let '(r1, ok, w) := argsReader_Next ToBytes (embedded args) in
  let b1 := match w with WBytes x => x | _ => b0 end in
  if ok then
    match val with
    | Some t =>
        let '(v, e) := parse b1 t in
        match e with
        | Some e' =>
            ({| embedded := {| dec := dec r1; err := Some e';
                               once := once r1; done := done r1 |};
                b := b1 |}, false, v)
        | None => ({| embedded := r1; b := b1 |}, true, v)
        end
    | None => ({| embedded := r1; b := b1 |}, true, None)
    end
  else ({| embedded := r1; b := b1 |}, false, None).

(** Close and Len are the methods of the embedded argsReader. *)
Definition byteArgsReader_Close (args : byteArgsReader)
  : byteArgsReader * option error :=
  let '(r1, e) := argsReader_Close (embedded args) in
  ({| embedded := r1; b := b args |}, e).

Definition byteArgsReader_Len (args : byteArgsReader)
  : byteArgsReader * Z :=
  let '(r1, n) := argsReader_Len (embedded args) in
  ({| embedded := r1; b := b args |}, n).

(** ** The three implementations of Args *)

#[export] Instance argsError_Args : Args argsError :=
  {| Close := argsError_Close; Len := argsError_Len;
     Next := argsError_Next |}.

#[export] Instance argsReader_Args : Args argsReader :=
  {| Close := argsReader_Close;
     Len := argsReader_Len;
     Next := fun val args =>
       let '(args1, ok, w) :=
         argsReader_Next
           (match val with Some t => ToValue t | None => ToNil end) args in
       (args1, ok, match w with WValue v => Some v | _ => None end) |}.

#[export] Instance byteArgsReader_Args : Args byteArgsReader :=
  {| Close := byteArgsReader_Close; Len := byteArgsReader_Len;
     Next := byteArgsReader_Next |}.

(** ** Sequences of method calls *)

Inductive call : Type :=
| CallClose
| CallLen
| CallNext (val : dst).

Inductive reply : Type :=
| RetClose (e : option error)
| RetLen (n : Z)
| RetNext (ok : bool) (w : option (Value float64)).

Definition invoke {A : Type} `{Args A} (c : call) (args : A) : A * reply :=
  match c with
  | CallClose => let '(a, e) := Close args in (a, RetClose e)
  | CallLen => let '(a, n) := Len args in (a, RetLen n)
  | CallNext val => let '(a, ok, w) := Next val args in (a, RetNext ok w)
  end.

Fixpoint run {A : Type} `{Args A} (cs : list call) (args : A)
  : A * list reply :=
  match cs with
  | [] => (args, [])
  | c :: rest =>
      let '(a1, r) := invoke c args in
      let '(a2, rs) := run rest a1 in
      (a2, r :: rs)
  end.

(** An argument list that records, in order, the calls made on it. *)
Record recorded (A : Type) : Type := {
  subject : A;
  calls : list call
}.

#[global] Arguments subject {A} _.
#[global] Arguments calls {A} _.

#[export] Instance recorded_Args (A : Type) `{Args A} : Args (recorded A) :=
  {| Close := fun r =>
       let '(a, e) := Close (subject r) in
       ({| subject := a; calls := calls r ++ [CallClose] |}, e);
     Len := fun r =>
       let '(a, n) := Len (subject r) in
       ({| subject := a; calls := calls r ++ [CallLen] |}, n);
     Next := fun val r =>
       let '(a, ok, w) := Next val (subject r) in
       ({| subject := a; calls := calls r ++ [CallNext val] |}, ok, w) |}.

End Streams.

(** ** The destination variants of the specification

    The specification names a closed set of destination variants; this is
    that set, written from its words, to be compared with [parse]. *)
Inductive variant : Type :=
| DstBool | DstSigned | DstUnsigned | DstFloat | DstString | DstBytes.

Definition variant_of (t : reflect.rtype) : option variant :=
  match reflect.Kind_of t with
  | reflect.Bool => Some DstBool
  | reflect.Int | reflect.Int8 | reflect.Int16 | reflect.Int32
  | reflect.Int64 => Some DstSigned
  | reflect.Uint | reflect.Uint8 | reflect.Uint16 | reflect.Uint32
  | reflect.Uint64 | reflect.Uintptr => Some DstUnsigned
  | reflect.Float32 | reflect.Float64 => Some DstFloat
  | reflect.String => Some DstString
  | reflect.Slice =>
      match reflect.Elem_Kind t with
      | reflect.Uint8 => Some DstBytes
      | _ => None
      end
  | _ => None
  end.

Definition convert `{Extern} (v : variant) (x : option (list byte))
  (t : reflect.rtype) : option (Value float64) * option error :=
  match v with
  | DstBool => parseBool x t
  | DstSigned => parseInt x t
  | DstUnsigned => parseUint x t
  | DstFloat => parseFloat x t
  | DstString => parseString x t
  | DstBytes => parseBytes x t
  end.

(** ** A small instance of the external functions

    Enough to run the definitions on concrete inputs: numbers are decimal
    integers, and a float64 is represented by the integer it was read from. *)
Module Sample.

Fixpoint digits (l : list byte) (acc : Z) : option Z :=
  match l with
  | [] => Some acc
  | c :: r =>
      let n := Z.of_N (Byte.to_N c) in
      if (48 <=? n) && (n <=? 57) then digits r (10 * acc + (n - 48))
      else None
  end.

Definition number (lo hi : Z) (l : list byte) : Z * option error :=
  match l with
  | [] => (0, Some (Errorf "invalid syntax"))
  | _ =>
      match digits l 0 with
      | None => (0, Some (Errorf "invalid syntax"))
      | Some n =>
          if (lo <=? n) && (n <=? hi) then (n, None)
          else (0, Some (Errorf "value out of range"))
      end
  end.

Definition ParseInt (l : list byte) : Z * option error :=
  match l with
  | x2d :: r =>
      let '(n, e) := number 0 (2 ^ 63) r in (- n, e)
  | _ => number 0 (2 ^ 63 - 1) l
  end.

Definition ParseUint (s : string) : Z * option error :=
  number 0 (2 ^ 64 - 1) (list_byte_of_string s).

Definition ParseFloat (s : string) : Z * option error :=
  ParseInt (list_byte_of_string s).

Definition decode (t : reflect.rtype) (p : resp.Parser)
  : resp.Parser * option error * option (Value Z) :=
  match p with
  | [] => (p, Some UnexpectedEOF, None)
  | resp.Integer i :: r =>
      match variant_of t with
      | Some DstSigned => (r, None, Some (VInt i))
      | _ => (p, Some (TypeConversionError "int" (reflect.String_of t)), None)
      end
  | resp.BulkString x :: r =>
      match variant_of t with
      | Some DstString => (r, None, Some (VString (string_of_list_byte x)))
      | Some DstBytes => (r, None, Some (VBytes x))
      | _ =>
          (p, Some (TypeConversionError "bytes" (reflect.String_of t)), None)
      end
  | tok :: _ =>
      (p, Some (TypeConversionError (objconv.Type_name (resp.type_of tok))
                                    (reflect.String_of t)), None)
  end.

#[export] Instance extern : Extern :=
  {| float64 := Z;
     float32_round := fun x => x;
     objutil_ParseInt := ParseInt;
     strconv_ParseUint := ParseUint;
     strconv_ParseFloat := ParseFloat;
     decodeValue := decode |}.


Definition bulk (s : string) : resp.token :=
  resp.BulkString (list_byte_of_string s).

(** The arguments of [LRANGE key 0 10], followed by the next request. *)
Definition lrange : resp.Parser :=
  [resp.ArrayHeader 3; bulk "key"; bulk "0"; bulk "10";
   resp.ArrayHeader 1; bulk "PING"].

(** A reply of two values, the second of which is an error. *)
Definition failed_reply : resp.Parser :=
  [resp.ArrayHeader 2; bulk "a"; resp.Error "ERR no such key"].

(** A reply of two values, the first of which is an array. *)
Definition nested_reply : resp.Parser :=
  [resp.ArrayHeader 2; resp.ArrayHeader 1; resp.Integer 5; resp.Integer 7].

End Sample.

(** ** One shared connection of the Transport *)
Module Transport.

Inductive command : Type :=
| LRANGE (key : string) (start stop : Z)
| PING.

(** [caller] is the number of the caller, [None] for the keepalive of the
    Transport. *)
Record PendingCall : Type := {
  caller : option nat;
  sent : command
}.

(** [for i != j { i++; res.Write(i) }], run [n] times. *)
Fixpoint writes (n : nat) (i : Z) : list resp.token :=
  match n with
  | O => []
  | S k => resp.Integer (i + 1) :: writes k (i + 1)
  end.

(** The handler of the test "fetch multiple streams of values": it reads the
    offsets [i] and [j], announces [j - i] values and writes [i+1 .. j] (the
    test sends [i = 0 <= j], for which the loop runs [j - i] times); a PING
    is answered by PONG. *)
Definition handler (cmd : command) : list resp.token :=
  match cmd with
  | LRANGE _ i j =>
      resp.ArrayHeader (Z.to_nat (j - i)) :: writes (Z.to_nat (j - i)) i
  | PING => [resp.SimpleString "PONG"]
  end.

(** Modelled from the spec: the Connection, which is not under src/: one
    socket, given by the frames in flight in each direction, and one FIFO
    queue of PendingCall. *)
Record Connection : Type := {
  queue : list PendingCall;             (* pending callers, oldest first *)
  requests : list command;              (* sent, not yet read by the server *)
  replies : list (list resp.token);     (* sent back, not yet read *)
  received : list (PendingCall * list resp.token)
                                        (* handed to callers, oldest first *)
}.

Definition idle : Connection :=
  {| queue := []; requests := []; replies := []; received := [] |}.

Inductive event : Type :=
| Submit (c : nat) (cmd : command)      (* a caller sends a request *)
| Keepalive                             (* the Transport sends a ping *)
| Serve                                 (* the server answers one request *)
| Deliver.                              (* the reader routes one reply *)

Definition push (pc : PendingCall) (conn : Connection) : Connection :=
  {| queue := queue conn ++ [pc];
     requests := requests conn ++ [sent pc];
     replies := replies conn;
     received := received conn |}.

(** Modelled from the spec: Connection and Transport are not under src/
    (sections 4.3 and 5 of the specification describe them).  A writer sends
    its request frame and pushes its PendingCall as one atomic step; the
    server answers the requests in the order it receives them; the single
    background reader takes the next reply frame and hands it to the head of
    the FIFO queue; a keepalive is a PING that the Transport itself submits.
    An event that cannot happen in a state leaves it unchanged. *)
Definition fire (ev : event) (conn : Connection) : Connection :=
  match ev with
  | Submit c cmd => push {| caller := Some c; sent := cmd |} conn
  | Keepalive => push {| caller := None; sent := PING |} conn
  | Serve =>
      match requests conn with
      | [] => conn
      | cmd :: rest =>
          {| queue := queue conn; requests := rest;
             replies := replies conn ++ [handler cmd];
             received := received conn |}
      end
  | Deliver =>
      match replies conn, queue conn with
      | frame :: rest, pc :: q =>
          {| queue := q; requests := requests conn; replies := rest;
             received := received conn ++ [(pc, frame)] |}
      | _, _ => conn
      end
  end.

Definition exchange (evs : list event) (conn : Connection) : Connection :=
  fold_left (fun c ev => fire ev c) evs conn.

(** The calls submitted by a sequence of events, in order. *)
Fixpoint submitted (evs : list event) : list PendingCall :=
  match evs with
  | [] => []
  | Submit c cmd :: rest => {| caller := Some c; sent := cmd |} :: submitted rest
  | Keepalive :: rest => {| caller := None; sent := PING |} :: submitted rest
  | _ :: rest => submitted rest
  end.

(** The pending calls are those whose reply is on its way back, followed by
    those whose request is on its way to the server. *)
Definition aligned (conn : Connection) : Prop :=
  exists q1 q2 : list PendingCall,
    queue conn = q1 ++ q2
    /\ replies conn = map (fun pc => handler (sent pc)) q1
    /\ requests conn = map sent q2.

Definition matched (conn : Connection) : Prop :=
  Forall (fun x => snd x = handler (sent (fst x))) (received conn).

End Transport.

(** ** Shutdown of the Server *)
Module Server.

Inductive loop_state : Type :=
| Idle | ReadingRequest | Dispatching | WritingReply | Closed.

Definition at_rest (l : loop_state) : bool :=
  match l with
  | Idle | Closed => true
  | _ => false
  end.

(** What Shutdown observes each time it looks: the error of the context,
    nil while it is not canceled, and the states of the dispatch loops. *)
Record observation : Type := {
  ctx_err : option error;
  loops : list loop_state
}.

(** Modelled from the spec: Server.Shutdown is not under src/ (section 4.4
    of the specification describes it): "wait for all active connection
    dispatch loops to reach Idle/Closed naturally; if ctx is canceled before
    that happens, return the context's error immediately".  The context is
    looked at first: the test "cancel a graceful shutdown" expects
    context.Canceled from a server that has no connection at all.  The result
    is the error that Shutdown returns and the number of times it had to
    wait and look again; [None] if it still waits after the last
    observation. *)
Fixpoint wait (now : observation) (later : list observation) (waited : nat)
  : option (option error * nat) :=
  match ctx_err now with
  | Some e => Some (Some e, waited)
  | None =>
      if forallb at_rest (loops now) then Some (None, waited)
      else
        match later with
        | [] => None
        | next :: rest => wait next rest (S waited)
        end
  end.

Record Server : Type := {
  accepting : bool;
  connections : list loop_state
}.

(** Modelled from the spec: Server.Shutdown, not under src/: "stop
    accepting new connections", then wait; the connections are left to
    themselves. *)
Definition Shutdown (srv : Server) (ctx : option error)
  (later : list observation) : Server * option (option error * nat) :=
  ({| accepting := false; connections := connections srv |},
   wait {| ctx_err := ctx; loops := connections srv |} later 0).

(** context.Canceled *)
Definition Canceled : error := Errorf "context canceled".

End Server.

(** ** Vocabulary of the properties *)

Section Vocabulary.

Context {ext : Extern}.

(** The error a reader is stuck with: its own [err], or else the one
    recorded in its decoder ([End] once the stream is exhausted). *)
Definition sticky (r : argsReader) : option error :=
  match err r with
  | Some e => Some e
  | None => sd_err (dec r)
  end.

Definition set_err (r : argsReader) (e : error) : argsReader :=
  {| dec := dec r; err := Some e; once := once r; done := done r |}.

(** What one method call of an argument list does to the argsReader inside
    it: a call of Next runs [argsReader.Next] on some destination and, in
    byteArgsReader, may then fail in [parse]. *)
Inductive step : argsReader -> call -> reply -> argsReader -> Prop :=
| step_Close (r : argsReader) :
    step r CallClose (RetClose (snd (argsReader_Close r)))
         (fst (argsReader_Close r))
| step_Len (r : argsReader) :
    step r CallLen (RetLen (snd (argsReader_Len r)))
         (fst (argsReader_Len r))
| step_Next (r r1 : argsReader) (val : dst) (tgt : target) (ok : bool)
    (w : written) (w' : option (Value float64)) :
    argsReader_Next tgt r = (r1, ok, w) ->
    step r (CallNext val) (RetNext ok w') r1
| step_parse (r r1 : argsReader) (val : dst) (tgt : target) (e : error)
    (w : written) (w' : option (Value float64)) :
    argsReader_Next tgt r = (r1, true, w) ->
    step r (CallNext val) (RetNext false w') (set_err r1 e).

(** [core] finds the argsReader of an implementation of Args. *)
Definition reader {A : Type} {H : Args A} (core : A -> argsReader) : Prop :=
  forall (c : call) (a : A),
    step (core a) c (snd (invoke c a)) (core (fst (invoke c a))).

(** The number of values a stream announces: the count of its array
    header, or one for a single value. *)
Definition announced (p : resp.Parser) : Z :=
  match p with
  | [] => 0
  | resp.ArrayHeader n :: _ => Z.of_nat n
  | _ :: _ => 1
  end.

(** The number of values remaining after a history of calls with these
    replies, on a stream that had [n] values remaining before it. *)
Fixpoint remaining (rs : list reply) (n : Z) : Z :=
  match rs with
  | [] => n
  | RetNext true _ :: rest => remaining rest (n - 1)
  | RetLen _ :: rest => remaining rest n
  | RetNext false _ :: _ => 0
  | RetClose _ :: _ => 0
  end.

Definition is_Close (c : call) : bool :=
  match c with CallClose => true | _ => false end.

Definition is_Len (c : call) : bool :=
  match c with CallLen => true | _ => false end.

Definition is_RetLen (r : reply) : bool :=
  match r with RetLen _ => true | _ => false end.

(** A call sequence without its calls of Len, and replies without those of
    Len. *)
Definition without_Len (cs : list call) : list call :=
  filter (fun c => negb (is_Len c)) cs.

Definition others (rs : list reply) : list reply :=
  filter (fun r => negb (is_RetLen r)) rs.

(** Next returned false, or Len returned 0. *)
Definition failing (rep : reply) : Prop :=
  match rep with
  | RetNext ok _ => ok = false
  | RetLen n => n = 0
  | RetClose _ => True
  end.

Definition closes_with (e : option error) (rep : reply) : Prop :=
  match rep with
  | RetClose e' => e' = e
  | _ => True
  end.

Definition Len_at_most (n : Z) (rep : reply) : Prop :=
  match rep with
  | RetLen m => 0 <= m <= n
  | _ => True
  end.

(** What has been sent on the done channel of a reader that was created with
    the channel [sent0]: nothing before Close, and then the one error of the
    decoder. *)
Definition sent_once (sent0 : option (list (option error)))
  (r : argsReader) : Prop :=
  if once r
  then sd_err (dec r) <> None
       /\ done r = option_map
                     (fun s => s ++ [StreamDecoder_Err (dec r)]) sent0
  else done r = sent0.

(** The decoder of a stream created over the input [p0] is in error, or
    has not read its header yet, or counts the values read within the
    announced count. *)
Definition within (p0 : resp.Parser) (d : StreamDecoder) : Prop :=
  sd_err d <> None
  \/ d = newStreamDecoder p0
  \/ (sd_err d = None /\ sd_typ d <> objconv.Unknown
      /\ sd_max d = announced p0 /\ 0 <= sd_cnt d <= sd_max d).

(** An argument list whose calls are recorded from now on. *)
Definition record {A : Type} (a : A) : recorded A :=
  {| subject := a; calls := [] |}.

(** [in_order dsts pre rs]: reading the destinations [dsts] in order and
    stopping at the first Next that returns false visits [pre] and gets the
    replies [rs]. *)
Inductive in_order : list dst -> list dst -> list reply -> Prop :=
| in_order_end : in_order [] [] []
| in_order_stop (d : dst) (rest : list dst) (w : option (Value float64)) :
    in_order (d :: rest) [d] [RetNext false w]
| in_order_next (d : dst) (rest pre : list dst) (rs : list reply)
    (w : option (Value float64)) :
    in_order rest pre rs ->
    in_order (d :: rest) (d :: pre) (RetNext true w :: rs).

(** The RESP values that decode into a byte slice, and the slice. *)
Definition as_bytes (t : resp.token) : option (option (list byte)) :=
  match t with
  | resp.BulkString x => Some (Some x)
  | resp.SimpleString x => Some (Some (list_byte_of_string x))
  | resp.Null => Some None
  | _ => None
  end.

End Vocabulary.

(** ** Vocabulary of the further properties *)

Section Frames.

Context {ext : Extern}.

(** The values a byteArgsReader reads without a decoding error: bulk
    strings, simple strings and null values, which go into its byte buffer,
    and RESP errors, which go into [err]. *)
Definition readable (t : resp.token) : bool :=
  match t with
  | resp.Integer _ | resp.ArrayHeader _ => false
  | _ => true
  end.

(** The array of the values [vals] on a connection whose input goes on with
    [rest]. *)
Definition frame (vals rest : resp.Parser) : resp.Parser :=
  resp.ArrayHeader (List.length vals) :: vals ++ rest.

(** The decoder of a reader over [frame vals rest] is in step with the
    input: it has not started, or the values it has not counted yet are the
    ones before [rest], or it is at the end of the stream in front of
    [rest]. *)
Definition in_step (vals rest : resp.Parser) (d : StreamDecoder) : Prop :=
  d = newStreamDecoder (frame vals rest)
  \/ (sd_err d = None /\ sd_typ d = objconv.Array
      /\ exists todo : resp.Parser,
           sd_Parser d = todo ++ rest
           /\ forallb readable todo = true
           /\ sd_max d - sd_cnt d = Z.of_nat (List.length todo))
  \/ (sd_err d = Some End /\ sd_Parser d = rest).

(** The reader over [frame vals rest]: in step until Close has run, in front
    of [rest] and at the end of the stream afterwards. *)
Definition framed (vals rest : resp.Parser) (r : argsReader) : Prop :=
  if once r
  then sd_err (dec r) = Some End /\ sd_Parser (dec r) = rest
  else in_step vals rest (dec r).

(** The number of calls of Next that returned true. *)
Fixpoint successes (rs : list reply) : Z :=
  match rs with
  | [] => 0
  | RetNext true _ :: rest => 1 + successes rest
  | _ :: rest => successes rest
  end.

(** The error a reader has to report: its own [err], or else the error of
    its decoder, which is none at the end of the stream. *)
Definition reported (r : argsReader) : option error :=
  match err r with
  | Some e => Some e
  | None => StreamDecoder_Err (dec r)
  end.

(** Close has run only on a decoder with a recorded error, and an [err]
    that is nil afterwards means that the stream was read to its end. *)
Definition settled (r : argsReader) : Prop :=
  once r = true ->
  sd_err (dec r) <> None /\ (err r = None -> sd_err (dec r) = Some End).

(** The range of a signed and of an unsigned integer of [n] bits. *)
Definition fits_signed (n i : Z) : Prop :=
  - 2 ^ (n - 1) <= i < 2 ^ (n - 1).

Definition fits_unsigned (n u : Z) : Prop := 0 <= u < 2 ^ n.

End Frames.

(** * Properties *)

Section Properties.

Context {ext : Extern}.

(** ** The stream decoder *)

Lemma skip_length (p : resp.Parser) :
  forall (k : nat) (r : resp.Parser),
    resp.skip p k = Some r -> (List.length r + k <= List.length p)%nat.
Proof.
  induction p as [|t p IH]; intros [|k] r H; simpl in H.
  - injection H as <-. simpl. lia.
  - discriminate.
  - injection H as <-. lia.
  - destruct t; apply IH in H; simpl; lia.
Qed.

(** An error recorded in the decoder is returned by every later [Decode],
    which then leaves the decoder as it is. *)
Lemma Decode_recorded (v : target) (d : StreamDecoder) (e : error) :
  sd_err d = Some e -> StreamDecoder_Decode v d = (d, Some e, WNothing).
Proof. intros H. unfold StreamDecoder_Decode. rewrite H. reflexivity. Qed.

Lemma Len_recorded (d : StreamDecoder) (e : error) :
  sd_err d = Some e -> StreamDecoder_Len d = (d, 0).
Proof. intros H. unfold StreamDecoder_Len. rewrite H. reflexivity. Qed.

Ltac break_match :=
  match goal with
  | |- context [match ?x with _ => _ end] => destruct x eqn:?
  | H : context [match ?x with _ => _ end] |- _ => destruct x eqn:?
  end.

Ltac crush_decode :=
  repeat (simpl in *; subst; try congruence; try break_match;
          try match goal with
              | H : (_, _) = (_, _) |- _ => inversion H; clear H
              end).

(** The error returned by [Decode] is the one it records. *)
Lemma Decode_records (v : target) (d d1 : StreamDecoder)
  (e : option error) (w : written) :
  StreamDecoder_Decode v d = (d1, e, w) -> sd_err d1 = e.
Proof.
  unfold StreamDecoder_Decode, StreamDecoder_init, resp.ParseArrayEnd,
    resp.ParseArrayNext.
  intros H. destruct d as [p er t c m].
  crush_decode.
Qed.

(** A [Decode(nil)] that returns nil has consumed input. *)
Lemma Decode_nil_consumes (d d1 : StreamDecoder) (w : written) :
  StreamDecoder_Decode ToNil d = (d1, None, w) ->
  (List.length (sd_Parser d1) < List.length (sd_Parser d))%nat.
Proof.
  unfold StreamDecoder_Decode, StreamDecoder_init, resp.ParseArrayEnd,
    resp.ParseArrayNext, resp.ParseArrayBegin, resp.ParseType, Decoder_Decode.
  intros H. destruct d as [p er t c m].
  crush_decode;
    match goal with
    | H : resp.skip _ _ = Some _ |- _ => apply skip_length in H; simpl; lia
    end.
Qed.

(** The discard loop of [Close] stops because [Decode] returned an error,
    not because its rounds ran out. *)
Lemma discard_ends (n : nat) :
  forall d : StreamDecoder,
    (List.length (sd_Parser d) < n)%nat -> sd_err (discard n d) <> None.
Proof.
  induction n as [|n IH]; intros d Hn; [lia|].
  simpl. destruct (StreamDecoder_Decode ToNil d) as [[d1 e] w] eqn:E.
  destruct e as [e|].
  - apply Decode_records in E. congruence.
  - apply IH. apply Decode_nil_consumes in E. lia.
Qed.

(** More rounds than needed change nothing. *)
Lemma discard_rounds (n : nat) :
  forall (m : nat) (d : StreamDecoder),
    (List.length (sd_Parser d) < n)%nat ->
    (List.length (sd_Parser d) < m)%nat ->
    discard n d = discard m d.
Proof.
  induction n as [|n IH]; intros [|m] d Hn Hm; try lia.
  simpl. destruct (StreamDecoder_Decode ToNil d) as [[d1 e] w] eqn:E.
  destruct e as [e|]; [reflexivity|].
  apply Decode_nil_consumes in E. apply IH; lia.
Qed.

Lemma discard_recorded (n : nat) (d : StreamDecoder) (e : error) :
  sd_err d = Some e -> discard n d = d.
Proof.
  intros H. destruct n as [|n]; [reflexivity|].
  simpl. rewrite (Decode_recorded ToNil d e H). reflexivity.
Qed.

(** [Len] reads the header of the stream at most once. *)
Lemma Len_Len (d : StreamDecoder) :
  StreamDecoder_Len (fst (StreamDecoder_Len d)) = StreamDecoder_Len d.
Proof.
  unfold StreamDecoder_Len, StreamDecoder_init, resp.ParseArrayBegin,
    resp.ParseType.
  destruct d as [p er t c m].
  destruct er as [e|]; [reflexivity|].
  destruct t; try reflexivity.
  destruct p as [|[] p]; reflexivity.
Qed.

(** A [Decode] does not see whether [Len] was called before it. *)
Lemma Decode_Len (v : target) (d : StreamDecoder) :
  StreamDecoder_Decode v (fst (StreamDecoder_Len d))
  = StreamDecoder_Decode v d.
Proof.
  unfold StreamDecoder_Len, StreamDecoder_Decode, StreamDecoder_init,
    resp.ParseArrayBegin, resp.ParseType, resp.ParseArrayEnd,
    resp.ParseArrayNext.
  destruct d as [p er t c m].
  destruct er as [e|]; [reflexivity|].
  destruct t; try reflexivity.
  destruct p as [|[] p]; simpl; try reflexivity.
  destruct (c =? Z.of_nat n) eqn:E; simpl; rewrite ?E; [reflexivity|].
  destruct (c =? 0); simpl; rewrite ?E; reflexivity.
Qed.

(** ** The argsReader: sticky errors *)

Lemma sticky_cases (r : argsReader) :
  sticky r <> None ->
  (exists e, err r = Some e)
  \/ (err r = None /\ exists e, sd_err (dec r) = Some e).
Proof.
  unfold sticky. destruct (err r) as [e|]; [eauto|].
  destruct (sd_err (dec r)) as [e|]; [eauto|congruence].
Qed.

Lemma Next_stuck (tgt : target) (r : argsReader) :
  sticky r <> None -> argsReader_Next tgt r = (r, false, WNothing).
Proof.
  intros H. apply sticky_cases in H as [[e H]|[H0 [e H]]];
    unfold argsReader_Next; rewrite ?H, ?H0; [reflexivity|].
  rewrite (Len_recorded _ _ H). simpl.
  rewrite (Decode_recorded _ _ _ H).
  destruct r; simpl in *; subst; reflexivity.
Qed.

Lemma Len_stuck (r : argsReader) :
  sticky r <> None -> argsReader_Len r = (r, 0).
Proof.
  intros H. apply sticky_cases in H as [[e H]|[H0 [e H]]];
    unfold argsReader_Len; rewrite ?H, ?H0; [reflexivity|].
  rewrite (Len_recorded _ _ H).
  destruct r; simpl in *; subst; reflexivity.
Qed.

Lemma Close_sticky (r : argsReader) :
  sticky r <> None -> sticky (fst (argsReader_Close r)) = sticky r.
Proof.
  intros H. unfold argsReader_Close.
  destruct (once r); [reflexivity|].
  apply sticky_cases in H as [[e H]|[H0 [e H]]].
  - unfold sticky. cbn [fst err dec]. rewrite H. reflexivity.
  - rewrite (discard_recorded _ _ _ H).
    unfold sticky, StreamDecoder_Err. cbn [fst err dec].
    rewrite H0, H. destruct e; reflexivity.
Qed.

(** A [Decode(&args.err)] that succeeds has stored an error. *)
Lemma Decode_error_written (d d1 : StreamDecoder) (w : written) :
  StreamDecoder_Decode ToError d = (d1, None, w) -> exists e, w = WError e.
Proof.
  unfold StreamDecoder_Decode, StreamDecoder_init, resp.ParseArrayEnd,
    resp.ParseArrayNext, resp.ParseArrayBegin, resp.ParseType, Decoder_Decode.
  intros H. destruct d as [p er t c m].
  crush_decode; eauto.
Qed.

(** After a Next that returned false the reader is stuck with an error. *)
Lemma Next_false_sticky (tgt : target) (r r1 : argsReader) (w : written) :
  argsReader_Next tgt r = (r1, false, w) -> sticky r1 <> None.
Proof.
  unfold argsReader_Next, sticky. intros H.
  destruct (err r) as [e|] eqn:He.
  - inversion H; subst. rewrite He. discriminate.
  - destruct (StreamDecoder_Len (dec r)) as [d1 n].
    destruct (negb (n =? 0) && _).
    + destruct (StreamDecoder_Decode ToError d1) as [[d2 e] w0] eqn:E.
      inversion H; subst; simpl.
      destruct e as [e|].
      * apply Decode_records in E. destruct w0; congruence.
      * apply Decode_error_written in E as [e ->]. discriminate.
    + destruct (StreamDecoder_Decode tgt d1) as [[d2 e] w0] eqn:E.
      inversion H; subst; simpl.
      apply Decode_records in E. destruct e; [congruence|discriminate].
Qed.

Lemma step_false (r r' : argsReader) (val : dst)
  (w : option (Value float64)) :
  step r (CallNext val) (RetNext false w) r' -> sticky r' <> None.
Proof.
  intros H. inversion H; subst.
  - eapply Next_false_sticky; eauto.
  - unfold sticky, set_err. simpl. discriminate.
Qed.

(** A stuck reader stays stuck with the same error, and its Next and Len
    fail. *)
Lemma step_stuck (r r' : argsReader) (c : call) (rep : reply) :
  sticky r <> None -> step r c rep r' ->
  sticky r' = sticky r /\ failing rep.
Proof.
  intros Hs H. inversion H; subst; simpl.
  - split; [apply Close_sticky; assumption|exact I].
  - rewrite (Len_stuck _ Hs). simpl. auto.
  - rewrite (Next_stuck tgt _ Hs) in H0. inversion H0; subst. auto.
  - rewrite (Next_stuck tgt _ Hs) in H0. discriminate.
Qed.

(** ** Both readers step as an argsReader *)

Lemma reader_argsReader : reader (fun a : argsReader => a).
Proof.
  intros c a. destruct c as [| |val]; simpl.
  - generalize (step_Close a).
    destruct (argsReader_Close a) as [a1 e]. simpl. auto.
  - generalize (step_Len a).
    destruct (argsReader_Len a) as [a1 n]. simpl. auto.
  - destruct (argsReader_Next _ a) as [[a1 ok] w] eqn:E. simpl.
    eapply step_Next; eassumption.
Qed.

Lemma reader_byteArgsReader : reader embedded.
Proof.
  intros c a. destruct c as [| |val]; simpl.
  - unfold byteArgsReader_Close. generalize (step_Close (embedded a)).
    destruct (argsReader_Close (embedded a)) as [a1 e]. simpl. auto.
  - unfold byteArgsReader_Len. generalize (step_Len (embedded a)).
    destruct (argsReader_Len (embedded a)) as [a1 n]. simpl. auto.
  - unfold byteArgsReader_Next.
    destruct (argsReader_Next ToBytes (embedded a)) as [[r1 ok] w] eqn:E.
    destruct ok; simpl.
    + destruct val as [t|]; simpl.
      * destruct (parse _ t) as [v [e|]]; simpl.
        -- apply (step_parse _ _ _ _ e _ _ E).
        -- eapply step_Next; eassumption.
      * eapply step_Next; eassumption.
    + eapply step_Next; eassumption.
Qed.

(** A property of the argsReader that every step keeps, and a property of
    the replies that it implies, hold along every call sequence. *)
Lemma run_invariant {A : Type} {H : Args A} (core : A -> argsReader)
  (P : argsReader -> Prop) (Q : reply -> Prop) :
  reader core ->
  (forall r c rep r', P r -> step r c rep r' -> P r' /\ Q rep) ->
  forall (cs : list call) (a : A),
    P (core a) ->
    P (core (fst (run cs a))) /\ Forall Q (snd (run cs a)).
Proof.
  intros Hr Hstep. induction cs as [|c cs IH]; intros a Ha; simpl.
  - auto.
  - specialize (Hr c a). destruct (invoke c a) as [a1 rep]. simpl in Hr.
    destruct (Hstep _ _ _ _ Ha Hr) as [Ha1 Hq].
    specialize (IH a1 Ha1). destruct (run cs a1) as [a2 rs]. simpl in *.
    destruct IH. auto.
Qed.

(** ** The argsReader: Close *)

Lemma Close_once (r : argsReader) :
  once (fst (argsReader_Close r)) = true
  /\ snd (argsReader_Close r) = err (fst (argsReader_Close r)).
Proof.
  unfold argsReader_Close. destruct (once r) eqn:E; simpl; auto.
Qed.

Lemma Len_frame (r : argsReader) :
  once (fst (argsReader_Len r)) = once r
  /\ done (fst (argsReader_Len r)) = done r
  /\ err (fst (argsReader_Len r)) = err r.
Proof.
  unfold argsReader_Len. destruct (err r) eqn:E; [simpl; auto|].
  destruct (StreamDecoder_Len (dec r)). simpl. auto.
Qed.

Lemma Next_frame (tgt : target) (r r1 : argsReader) (ok : bool)
  (w : written) :
  argsReader_Next tgt r = (r1, ok, w) ->
  once r1 = once r /\ done r1 = done r.
Proof.
  unfold argsReader_Next. intros H. destruct (err r).
  - inversion H; subst; auto.
  - destruct (StreamDecoder_Len (dec r)) as [d1 n].
    destruct (negb (n =? 0) && _).
    + destruct (StreamDecoder_Decode ToError d1) as [[d2 e] w0].
      inversion H; subst; auto.
    + destruct (StreamDecoder_Decode tgt d1) as [[d2 e] w0].
      inversion H; subst; auto.
Qed.

Lemma recorded_sticky (r : argsReader) :
  sd_err (dec r) <> None -> sticky r <> None.
Proof. unfold sticky. destruct (err r); [discriminate|auto]. Qed.

(** Once Close has run, no call changes the argsReader any more: Close
    returns the cached error, Next returns false and Len returns 0. *)
Lemma step_closed (r r' : argsReader) (c : call) (rep : reply) :
  once r = true -> sd_err (dec r) <> None -> step r c rep r' ->
  r' = r /\ closes_with (err r) rep /\ failing rep.
Proof.
  intros Ho Hd H. apply recorded_sticky in Hd.
  inversion H; subst; simpl.
  - unfold argsReader_Close. rewrite Ho. simpl. auto.
  - rewrite (Len_stuck _ Hd). simpl. auto.
  - rewrite (Next_stuck tgt _ Hd) in H0. inversion H0; subst. auto.
  - rewrite (Next_stuck tgt _ Hd) in H0. discriminate.
Qed.

(** The done channel receives one value, in the first Close. *)
Lemma step_sent_once (sent0 : option (list (option error)))
  (r r' : argsReader) (c : call) (rep : reply) :
  sent_once sent0 r -> step r c rep r' -> sent_once sent0 r'.
Proof.
  unfold sent_once. intros Hs H.
  destruct (once r) eqn:Ho.
  - destruct Hs as [Hd Hs].
    destruct (step_closed _ _ _ _ Ho Hd H) as [-> _]. rewrite Ho. auto.
  - inversion H; subst.
    + unfold argsReader_Close. rewrite Ho. cbn [fst once dec done].
      split; [apply discard_ends; lia|].
      destruct (done r); reflexivity.
    + destruct (Len_frame r) as [-> [-> _]]. rewrite Ho. reflexivity.
    + destruct (Next_frame _ _ _ _ _ H0) as [-> ->]. rewrite Ho. reflexivity.
    + destruct (Next_frame _ _ _ _ _ H0) as [E1 E2]. unfold set_err. simpl.
      rewrite E1, E2, Ho. reflexivity.
Qed.

Lemma step_once (r r' : argsReader) (c : call) (rep : reply) :
  step r c rep r' -> once r' = once r || is_Close c.
Proof.
  intros H. inversion H; subst; simpl.
  - destruct (Close_once r) as [-> _]. rewrite orb_true_r. reflexivity.
  - destruct (Len_frame r) as [-> _]. rewrite orb_false_r. reflexivity.
  - destruct (Next_frame _ _ _ _ _ H0) as [-> _].
    rewrite orb_false_r. reflexivity.
  - destruct (Next_frame _ _ _ _ _ H0) as [-> _].
    rewrite orb_false_r. reflexivity.
Qed.

Lemma run_once {A : Type} {H : Args A} (core : A -> argsReader) :
  reader core ->
  forall (cs : list call) (a : A),
    once (core (fst (run cs a))) = once (core a) || existsb is_Close cs.
Proof.
  intros Hr. induction cs as [|c cs IH]; intros a; simpl.
  - rewrite orb_false_r. reflexivity.
  - specialize (Hr c a). destruct (invoke c a) as [a1 rep]. simpl in Hr.
    specialize (IH a1). destruct (run cs a1) as [a2 rs]. simpl in *.
    rewrite IH, (step_once _ _ _ _ Hr), orb_assoc. reflexivity.
Qed.

Lemma skip_0 (p : resp.Parser) : resp.skip p 0 = Some p.
Proof. destruct p; reflexivity. Qed.

Lemma skip_add (p : resp.Parser) :
  forall i j : nat,
    resp.skip p (i + j)
    = match resp.skip p i with
      | Some q => resp.skip q j
      | None => None
      end.
Proof.
  induction p as [|t p IH]; intros [|i] j; simpl; try reflexivity.
  destruct t; try apply IH.
  replace (i + j + n)%nat with ((i + n) + j)%nat by lia. apply IH.
Qed.

(** On a decoder that has read its header and whose [k] unread values are
    all in the input, the discard loop consumes exactly these and ends the
    stream. *)
Lemma discard_all (k : nat) :
  forall (d : StreamDecoder) (rest : resp.Parser) (n : nat),
    sd_err d = None -> sd_typ d <> objconv.Unknown ->
    sd_max d - sd_cnt d = Z.of_nat k ->
    resp.skip (sd_Parser d) k = Some rest ->
    (List.length (sd_Parser d) < n)%nat ->
    discard n d
    = {| sd_Parser := rest; sd_err := Some End; sd_typ := sd_typ d;
         sd_cnt := sd_max d; sd_max := sd_max d |}.
Proof.
  induction k as [|k IH]; intros d rest n He Ht Hk Hs Hn;
    (destruct n as [|n]; [lia|]);
    destruct d as [p er t c m]; simpl in *; subst er.
  - rewrite skip_0 in Hs. injection Hs as <-.
    assert (c = m) by lia. subst c.
    unfold StreamDecoder_Decode. simpl. rewrite Z.eqb_refl.
    destruct t; try congruence; simpl; rewrite ?Z.eqb_refl; reflexivity.
  - change (S k) with (1 + k)%nat in Hs. rewrite skip_add in Hs.
    destruct (resp.skip p 1) as [q|] eqn:E1; [|discriminate].
    assert (Hc : (c =? m) = false) by (apply Z.eqb_neq; lia).
    assert (Hq : (List.length q < n)%nat)
      by (apply skip_length in E1; lia).
    assert (Hd : StreamDecoder_Decode ToNil
                   {| sd_Parser := p; sd_err := None; sd_typ := t;
                      sd_cnt := c; sd_max := m |}
                 = ({| sd_Parser := q; sd_err := None; sd_typ := t;
                       sd_cnt := c + 1; sd_max := m |}, None, WNothing)).
    { unfold StreamDecoder_Decode, Decoder_Decode, resp.ParseArrayNext.
      cbn [sd_err sd_typ sd_cnt sd_max sd_Parser].
      destruct t; try congruence; rewrite ?Hc;
        try (destruct (negb (c =? 0))); cbn [sd_Parser sd_typ];
        rewrite ?Hc, E1; reflexivity. }
    rewrite Hd.
    rewrite (IH _ rest n); simpl; auto; lia.
Qed.

(** A decoder that [Len] leaves without error has read its header, and
    [Len] is what remains of the announced count. *)
Lemma Len_live (d d1 : StreamDecoder) (n : Z) :
  StreamDecoder_Len d = (d1, n) -> sd_err d1 = None ->
  sd_typ d1 <> objconv.Unknown /\ n = sd_max d1 - sd_cnt d1.
Proof.
  unfold StreamDecoder_Len, StreamDecoder_init, resp.ParseArrayBegin,
    resp.ParseType.
  intros H He. destruct d as [p er t c m]. cbn [sd_err sd_typ] in H.
  destruct er as [e|]; [inversion H; subst; discriminate|].
  destruct t; cbn [objconv.Type_eqb sd_Parser sd_cnt sd_max] in H;
    try (inversion H; subst; simpl; split; [discriminate|reflexivity]).
  destruct p as [|[] p]; simpl in H; inversion H; subst; simpl in *;
    try discriminate; split; (discriminate || reflexivity).
Qed.

Lemma Len_length (d : StreamDecoder) :
  (List.length (sd_Parser (fst (StreamDecoder_Len d)))
   <= List.length (sd_Parser d))%nat.
Proof.
  unfold StreamDecoder_Len, StreamDecoder_init, resp.ParseArrayBegin,
    resp.ParseType.
  destruct d as [p er t c m]. simpl.
  destruct er; simpl; [lia|].
  destruct t; simpl; try lia.
  destruct p as [|[] p]; simpl; lia.
Qed.

(** The discard loop does not see whether [Len] was called before it. *)
Lemma discard_Len (d : StreamDecoder) (n m : nat) :
  (List.length (sd_Parser d) < n)%nat ->
  (List.length (sd_Parser (fst (StreamDecoder_Len d))) < m)%nat ->
  discard m (fst (StreamDecoder_Len d)) = discard n d.
Proof.
  intros Hn Hm. destruct n as [|n]; [lia|]. destruct m as [|m]; [lia|].
  simpl. rewrite Decode_Len.
  destruct (StreamDecoder_Decode ToNil d) as [[d2 e] w] eqn:E.
  destruct e as [e|]; [reflexivity|].
  pose proof E as E'. rewrite <- Decode_Len in E'.
  apply Decode_nil_consumes in E, E'.
  apply discard_rounds; lia.
Qed.

(** Close discards the values that were not read: when the [k] values that
    remain are all in the input, the first Close leaves the parser right
    after them and the decoder without error. *)
Lemma Close_discards (r : argsReader) (d1 : StreamDecoder) (k : nat)
  (rest : resp.Parser) :
  once r = false ->
  StreamDecoder_Len (dec r) = (d1, Z.of_nat k) ->
  sd_err d1 = None ->
  resp.skip (sd_Parser d1) k = Some rest ->
  sd_Parser (dec (fst (argsReader_Close r))) = rest
  /\ StreamDecoder_Err (dec (fst (argsReader_Close r))) = None.
Proof.
  intros Ho HL He Hs. unfold argsReader_Close. rewrite Ho. cbn [fst dec].
  destruct (Len_live _ _ _ HL He) as [Ht Hk].
  assert (Hd : d1 = fst (StreamDecoder_Len (dec r))) by (rewrite HL; auto).
  rewrite <- (discard_Len (dec r) _ (S (List.length (sd_Parser d1))));
    [|lia|rewrite <- Hd; lia].
  rewrite <- Hd.
  rewrite (discard_all k d1 rest); auto.
Qed.

(** ** Close is idempotent and the first call wins *)

Lemma invoke_Close {A : Type} {H : Args A} (a : A) :
  invoke CallClose a = (fst (Close a), RetClose (snd (Close a))).
Proof. simpl. destruct (Close a). reflexivity. Qed.

Lemma step_Close_inv (r r' : argsReader) (e : option error) :
  step r CallClose (RetClose e) r' ->
  r' = fst (argsReader_Close r) /\ e = snd (argsReader_Close r).
Proof. intros H. inversion H; subst. auto. Qed.

Lemma Close_first_wins_reader {A : Type} {H : Args A}
  (core : A -> argsReader) (sent : option (list (option error))) (a0 : A)
  (cs cs' : list call) :
  reader core -> once (core a0) = false -> done (core a0) = sent ->
  let a := fst (run cs a0) in
  let a1 := fst (Close a) in
  once (core a) = existsb is_Close cs
  /\ sent_once sent (core a)
  /\ sent_once sent (core a1)
  /\ once (core a1) = true
  /\ core (fst (run cs' a1)) = core a1
  /\ Forall (closes_with (snd (Close a))) (snd (run cs' a1)).
Proof.
  intros Hr Ho Hd a a1.
  assert (H0 : sent_once sent (core a0))
    by (unfold sent_once; rewrite Ho; assumption).
  assert (Ha : sent_once sent (core a)).
  { apply (run_invariant core (sent_once sent) (fun _ => True) Hr); auto.
    intros. split; [eapply step_sent_once; eauto|exact I]. }
  pose proof (Hr CallClose a) as Hc. rewrite invoke_Close in Hc.
  cbn [fst snd] in Hc. fold a1 in Hc.
  pose proof (step_sent_once _ _ _ _ _ Ha Hc) as Ha1.
  pose proof (step_once _ _ _ _ Hc) as Ho1.
  rewrite orb_true_r in Ho1.
  apply step_Close_inv in Hc as [Hc1 Hc2].
  assert (He : snd (Close a) = err (core a1)).
  { rewrite Hc2, Hc1. apply Close_once. }
  pose proof Ha1 as Hs. unfold sent_once in Hs. rewrite Ho1 in Hs.
  destruct Hs as [Hs _].
  split; [unfold a; rewrite (run_once core Hr), Ho; reflexivity|].
  repeat (split; [assumption|]).
  rewrite He.
  apply (run_invariant core (fun r => r = core a1)
           (closes_with (err (core a1))) Hr); [|reflexivity].
  intros r c rep r' -> Hstep.
  destruct (step_closed _ _ _ _ Ho1 Hs Hstep) as [-> [Hq _]]. auto.
Qed.

Lemma run_argsError (e : option error) (cs : list call) :
  fst (run cs (newArgsError e)) = newArgsError e
  /\ Forall (fun rep => closes_with e rep /\ failing rep)
            (snd (run cs (newArgsError e))).
Proof.
  induction cs as [|c cs [IH1 IH2]]; simpl; [auto|].
  destruct c; simpl;
    destruct (run cs (newArgsError e)) as [a rs]; simpl in *;
    split; auto; constructor; simpl; auto.
Qed.

(** C1.  Close is idempotent and the first call wins.  For a reader created
    by [newArgsReader] or [newByteArgsReader] and any calls [cs] made on it
    since: Close has run exactly if [cs] contains a Close; before that
    nothing was sent on the done channel, and from the first Close on the
    channel holds exactly one more value, the error of the decoder after the
    discard loop has run to its end ([sent_once]); any calls [cs'] after a
    Close leave the argsReader (decoder and channel included) as that Close
    left it, and every Close among them returns the error that Close
    returned.  The first Close discards the unread values: if the [k]
    values that remain are all in the input, it leaves the parser right
    after them.  An argsError returns its error from every Close. *)
Theorem Close_first_call_wins :
  (forall (e : option error) (cs : list call),
      Forall (closes_with e) (snd (run cs (newArgsError e))))
  /\ (forall (p : resp.Parser) (sent : option (list (option error)))
             (cs cs' : list call),
        let a := fst (run cs (newArgsReader p sent)) in
        let a1 := fst (Close a) in
        once a = existsb is_Close cs
        /\ sent_once sent a
        /\ sent_once sent a1
        /\ once a1 = true
        /\ fst (run cs' a1) = a1
        /\ Forall (closes_with (snd (Close a))) (snd (run cs' a1)))
  /\ (forall (p : resp.Parser) (sent : option (list (option error)))
             (cs cs' : list call),
        let a := fst (run cs (newByteArgsReader p sent)) in
        let a1 := fst (Close a) in
        once (embedded a) = existsb is_Close cs
        /\ sent_once sent (embedded a)
        /\ sent_once sent (embedded a1)
        /\ once (embedded a1) = true
        /\ embedded (fst (run cs' a1)) = embedded a1
        /\ Forall (closes_with (snd (Close a))) (snd (run cs' a1)))
  /\ (forall (r : argsReader) (d1 : StreamDecoder) (k : nat)
             (rest : resp.Parser),
        once r = false ->
        StreamDecoder_Len (dec r) = (d1, Z.of_nat k) ->
        sd_err d1 = None ->
        resp.skip (sd_Parser d1) k = Some rest ->
        sd_Parser (dec (fst (argsReader_Close r))) = rest
        /\ StreamDecoder_Err (dec (fst (argsReader_Close r))) = None).
Proof.
  split; [|split; [|split]].
  - intros e cs. destruct (run_argsError e cs) as [_ H].
    eapply Forall_impl; [|exact H]. simpl. tauto.
  - intros p sent cs cs'.
    apply (Close_first_wins_reader (fun a : argsReader => a) sent
             (newArgsReader p sent) cs cs' reader_argsReader);
      reflexivity.
  - intros p sent cs cs'.
    apply (Close_first_wins_reader embedded sent
             (newByteArgsReader p sent) cs cs' reader_byteArgsReader);
      reflexivity.
  - apply Close_discards.
Qed.

(** ** A failed Next is final *)

Lemma invoke_Next {A : Type} {H : Args A} (val : dst) (a : A) :
  invoke (CallNext val) a
  = (fst (fst (Next val a)),
     RetNext (snd (fst (Next val a))) (snd (Next val a))).
Proof. simpl. destruct (Next val a) as [[a1 ok] w]. reflexivity. Qed.



(** ** A RESP error in the stream *)

Lemma Decode_error (d : StreamDecoder) (msg : string) (rest : resp.Parser) :
  sd_err d = None -> sd_typ d <> objconv.Unknown ->
  sd_max d - sd_cnt d <> 0 ->
  sd_Parser d = resp.Error msg :: rest ->
  StreamDecoder_Decode ToError d
  = ({| sd_Parser := rest; sd_err := None; sd_typ := sd_typ d;
        sd_cnt := sd_cnt d + 1; sd_max := sd_max d |},
     None, WError (RespError msg)).
Proof.
  destruct d as [p er t c m]. simpl. intros -> Ht Hn ->.
  assert (Hc : (c =? m) = false) by (apply Z.eqb_neq; lia).
  unfold StreamDecoder_Decode, Decoder_Decode, resp.ParseArrayNext.
  cbn [sd_err sd_typ sd_cnt sd_max sd_Parser].
  destruct t; try congruence; rewrite ?Hc;
    try (destruct (negb (c =? 0))); cbn [sd_Parser sd_typ];
    rewrite ?Hc; reflexivity.
Qed.

(** On a RESP error, [argsReader.Next] stores the error in [err] and
    returns false, whatever the destination. *)
Lemma Next_on_error (tgt : target) (r : argsReader) (d1 : StreamDecoder)
  (n : Z) (msg : string) (rest : resp.Parser) :
  err r = None ->
  StreamDecoder_Len (dec r) = (d1, n) -> n <> 0 ->
  sd_Parser d1 = resp.Error msg :: rest ->
  exists r1,
    argsReader_Next tgt r = (r1, false, WNothing)
    /\ err r1 = Some (RespError msg)
    /\ sd_Parser (dec r1) = rest.
Proof.
  intros He HL Hn Hp. unfold argsReader_Next. rewrite He, HL.
  assert (Hd : sd_err d1 = None).
  { destruct (sd_err d1) as [e|] eqn:E; [|reflexivity].
    pose proof (Len_Len (dec r)) as H. rewrite HL in H. simpl in H.
    rewrite (Len_recorded _ _ E) in H. congruence. }
  destruct (Len_live _ _ _ HL Hd) as [Ht Hk].
  rewrite Hp. simpl.
  replace (n =? 0) with false by (symmetry; apply Z.eqb_neq; assumption).
  simpl. rewrite (Decode_error d1 msg rest); auto; [|congruence].
  eexists. split; [reflexivity|]. simpl. auto.
Qed.

(** The error in [err] never changes; Close returns it. *)
Lemma step_err (r r' : argsReader) (c : call) (rep : reply) (x : error) :
  err r = Some x -> step r c rep r' ->
  err r' = Some x /\ (failing rep /\ closes_with (Some x) rep).
Proof.
  intros He H.
  assert (Hs : sticky r <> None) by (unfold sticky; rewrite He; congruence).
  inversion H; subst; simpl.
  - unfold argsReader_Close. rewrite He. destruct (once r); simpl; auto.
  - rewrite (Len_stuck _ Hs). simpl. auto.
  - rewrite (Next_stuck tgt _ Hs) in H0. inversion H0; subst. auto.
  - rewrite (Next_stuck tgt _ Hs) in H0. discriminate.
Qed.

Lemma Next_error_reader {A : Type} {H : Args A} (core : A -> argsReader)
  (a : A) (val : dst) (d1 : StreamDecoder) (n : Z) (msg : string)
  (rest : resp.Parser) (cs : list call) :
  reader core ->
  err (core a) = None ->
  StreamDecoder_Len (dec (core a)) = (d1, n) -> n <> 0 ->
  sd_Parser d1 = resp.Error msg :: rest ->
  let a1 := fst (fst (Next val a)) in
  snd (fst (Next val a)) = false
  /\ err (core a1) = Some (RespError msg)
  /\ Forall (fun rep => failing rep
                        /\ closes_with (Some (RespError msg)) rep)
            (snd (run cs a1)).
Proof.
  intros Hr He HL Hn Hp a1. pose proof (Hr (CallNext val) a) as Hs.
  rewrite invoke_Next in Hs. cbn [fst snd] in Hs. fold a1 in Hs.
  assert (E : snd (fst (Next val a)) = false
              /\ err (core a1) = Some (RespError msg)).
  { inversion Hs as [| |? ? ? tgt ? ? ? HN|? ? ? tgt ? ? ? HN]; subst;
      destruct (Next_on_error tgt _ _ _ _ _ He HL Hn Hp) as [? [E1 [E2 _]]];
      rewrite E1 in HN; inversion HN; subst; auto. }
  destruct E as [E1 E2]. split; [assumption|]. split; [assumption|].
  apply (run_invariant core (fun r => err r = Some (RespError msg)) _ Hr);
    [|assumption].
  intros r c rep r' Hr0 Hstep. eapply step_err; eauto.
Qed.

(** C2.  On a stream without prior error ([err] is nil) that has values
    remaining (Len is not 0; [d1] is the decoder once Len has read the
    header) and whose next value is a RESP error with message [msg]: Next,
    whatever its destination, returns false and stores that error in the
    stream; afterwards every Next returns false (and Len 0) and every Close
    returns that same error.  This holds for an argsReader and for a
    byteArgsReader. *)
Theorem Next_on_RESP_error :
  (forall (a : argsReader) (val : dst) (d1 : StreamDecoder) (n : Z)
          (msg : string) (rest : resp.Parser) (cs : list call),
      err a = None ->
      StreamDecoder_Len (dec a) = (d1, n) -> n <> 0 ->
      sd_Parser d1 = resp.Error msg :: rest ->
      let a1 := fst (fst (Next val a)) in
      snd (fst (Next val a)) = false
      /\ err a1 = Some (RespError msg)
      /\ Forall (fun rep => failing rep
                            /\ closes_with (Some (RespError msg)) rep)
                (snd (run cs a1)))
  /\ (forall (a : byteArgsReader) (val : dst) (d1 : StreamDecoder) (n : Z)
             (msg : string) (rest : resp.Parser) (cs : list call),
        err (embedded a) = None ->
        StreamDecoder_Len (dec (embedded a)) = (d1, n) -> n <> 0 ->
        sd_Parser d1 = resp.Error msg :: rest ->
        let a1 := fst (fst (Next val a)) in
        snd (fst (Next val a)) = false
        /\ err (embedded a1) = Some (RespError msg)
        /\ Forall (fun rep => failing rep
                              /\ closes_with (Some (RespError msg)) rep)
                  (snd (run cs a1))).
Proof.
  split.
  - intros a val d1 n msg rest cs.
    apply (Next_error_reader (fun a : argsReader => a) a val d1 n msg rest
             cs reader_argsReader).
  - intros a val d1 n msg rest cs.
    apply (Next_error_reader embedded a val d1 n msg rest cs
             reader_byteArgsReader).
Qed.

(** ** Len stays within the announced count *)

Lemma announced_nonneg (p : resp.Parser) : 0 <= announced p.
Proof. destruct p as [|[] p]; simpl; lia. Qed.

Lemma Len_within (p0 : resp.Parser) (d : StreamDecoder) :
  within p0 d ->
  within p0 (fst (StreamDecoder_Len d))
  /\ 0 <= snd (StreamDecoder_Len d) <= announced p0
  /\ (sd_err (fst (StreamDecoder_Len d)) = None ->
      sd_typ (fst (StreamDecoder_Len d)) <> objconv.Unknown).
Proof.
  pose proof (announced_nonneg p0) as Hp.
  intros [H|[->|[He [Ht [Hm Hc]]]]].
  - destruct (sd_err d) as [e|] eqn:E; [|congruence].
    rewrite (Len_recorded _ _ E). simpl.
    split; [left; congruence|]. split; [lia|congruence].
  - unfold StreamDecoder_Len, StreamDecoder_init, resp.ParseType,
      resp.ParseArrayBegin, newStreamDecoder, within.
    destruct p0 as [|[] p0]; simpl in *;
      (split; [|split; [lia|congruence]]);
      try (left; discriminate);
      right; right; simpl; repeat split; try discriminate; lia.
  - unfold StreamDecoder_Len. rewrite He.
    destruct (objconv.Type_eqb (sd_typ d) objconv.Unknown) eqn:E.
    + destruct (sd_typ d); simpl in E; congruence.
    + simpl. split; [right; right; auto|]. split; [lia|auto].
Qed.

(** [Decode] on a decoder that has read its header. *)
Lemma Decode_known (v : target) (d : StreamDecoder) :
  sd_err d = None -> sd_typ d <> objconv.Unknown ->
  StreamDecoder_Decode v d
  = if sd_cnt d =? sd_max d
    then ({| sd_Parser := sd_Parser d; sd_err := Some End;
             sd_typ := sd_typ d; sd_cnt := sd_cnt d;
             sd_max := sd_max d |}, Some End, WNothing)
    else
      let '(p1, e, w) := Decoder_Decode v (sd_Parser d) in
      match e with
      | None =>
          ({| sd_Parser := p1; sd_err := None; sd_typ := sd_typ d;
              sd_cnt := sd_cnt d + 1; sd_max := sd_max d |}, None, w)
      | Some End =>
          ({| sd_Parser := p1; sd_err := Some End; sd_typ := sd_typ d;
              sd_cnt := sd_cnt d + 1; sd_max := sd_cnt d + 1 |},
           Some End, w)
      | Some e' =>
          let e1 := if sd_max d <? 0 then End else e' in
          ({| sd_Parser := p1; sd_err := Some e1; sd_typ := sd_typ d;
              sd_cnt := sd_cnt d; sd_max := sd_max d |}, Some e1, w)
      end.
Proof.
  destruct d as [p er t c m]. simpl. intros -> Ht.
  unfold StreamDecoder_Decode, resp.ParseArrayEnd, resp.ParseArrayNext.
  cbn [sd_err sd_typ sd_cnt sd_max sd_Parser].
  assert (K : forall b : bool,
             (if b then (p, @None error) else (p, None)) = (p, None))
    by (intros []; reflexivity).
  destruct t; try congruence;
    destruct (c =? m) eqn:E; cbn [sd_Parser sd_typ sd_max];
    try (destruct (negb (c =? 0))); cbn [sd_Parser sd_typ sd_max];
    rewrite ?E; try reflexivity;
    destruct (Decoder_Decode v p) as [[p1 e] w];
    destruct e as [[]|]; cbn [snd isNil]; rewrite ?andb_true_r;
    try reflexivity; destruct (m <? 0); reflexivity.
Qed.

Lemma Decode_within_known (v : target) (p0 : resp.Parser)
  (d : StreamDecoder) :
  sd_err d = None -> sd_typ d <> objconv.Unknown ->
  sd_max d = announced p0 -> 0 <= sd_cnt d <= sd_max d ->
  within p0 (fst (fst (StreamDecoder_Decode v d))).
Proof.
  intros He Ht Hm Hc. rewrite (Decode_known v d He Ht). unfold within.
  destruct (sd_cnt d =? sd_max d) eqn:E; [left; simpl; discriminate|].
  apply Z.eqb_neq in E.
  destruct (Decoder_Decode v (sd_Parser d)) as [[p1 e] w].
  destruct e as [[]|]; simpl; try (left; discriminate).
  right; right. repeat split; auto; lia.
Qed.

Lemma Decode_within (v : target) (p0 : resp.Parser) (d : StreamDecoder) :
  within p0 d -> within p0 (fst (fst (StreamDecoder_Decode v d))).
Proof.
  intros H. rewrite <- Decode_Len.
  destruct (Len_within p0 d H) as [[H1|[H1|[He [Ht [Hm Hc]]]]] [_ H2]].
  - destruct (sd_err (fst (StreamDecoder_Len d))) as [e|] eqn:E;
      [|congruence].
    rewrite (Decode_recorded _ _ _ E). left. simpl. rewrite E. discriminate.
  - exfalso. rewrite H1 in H2. simpl in H2. apply H2; reflexivity.
  - apply Decode_within_known; assumption.
Qed.

Lemma Next_within (tgt : target) (p0 : resp.Parser) (r r1 : argsReader)
  (ok : bool) (w : written) :
  within p0 (dec r) -> argsReader_Next tgt r = (r1, ok, w) ->
  within p0 (dec r1).
Proof.
  unfold argsReader_Next. intros Hw H. destruct (err r).
  - inversion H; subst; assumption.
  - pose proof (Len_within p0 _ Hw) as [H1 _].
    destruct (StreamDecoder_Len (dec r)) as [d1 n]. simpl in H1.
    destruct (negb (n =? 0) && _).
    + pose proof (Decode_within ToError p0 d1 H1) as H2.
      destruct (StreamDecoder_Decode ToError d1) as [[d2 e] w0].
      inversion H; subst; assumption.
    + pose proof (Decode_within tgt p0 d1 H1) as H2.
      destruct (StreamDecoder_Decode tgt d1) as [[d2 e] w0].
      inversion H; subst; assumption.
Qed.

Lemma step_within (p0 : resp.Parser) (r r' : argsReader) (c : call)
  (rep : reply) :
  within p0 (dec r) -> step r c rep r' ->
  within p0 (dec r') /\ Len_at_most (announced p0) rep.
Proof.
  intros Hw H. pose proof (announced_nonneg p0) as Hp.
  inversion H as [| |? ? ? tgt ? ? ? HN|? ? ? tgt ? ? ? HN]; subst; simpl.
  - split; [|exact I]. unfold argsReader_Close.
    destruct (once r); [assumption|]. left. cbn [fst dec].
    apply discard_ends. lia.
  - unfold argsReader_Len. destruct (err r); simpl; [split; [auto|lia]|].
    pose proof (Len_within p0 _ Hw) as [H1 [H2 _]].
    destruct (StreamDecoder_Len (dec r)) as [d1 n]. simpl in *. auto.
  - split; [eapply Next_within; eauto|exact I].
  - split; [eapply Next_within; eauto|exact I].
Qed.

(** ** After Close *)

Lemma after_Close_reader {A : Type} {H : Args A} (core : A -> argsReader)
  (sent : option (list (option error))) (a0 : A) (cs cs' : list call) :
  reader core -> once (core a0) = false -> done (core a0) = sent ->
  Forall failing (snd (run cs' (fst (Close (fst (run cs a0)))))).
Proof.
  intros Hr Ho Hd.
  destruct (Close_first_wins_reader core sent a0 cs cs' Hr Ho Hd)
    as [_ [_ [Hs [Ho1 _]]]].
  unfold sent_once in Hs. rewrite Ho1 in Hs. destruct Hs as [Hs _].
  apply recorded_sticky in Hs.
  apply (run_invariant core (fun r => sticky r <> None) failing Hr);
    [|assumption].
  intros r c rep r' Hne Hstep.
  destruct (step_stuck _ _ _ _ Hne Hstep) as [E Hf].
  split; [congruence|assumption].
Qed.

(** C4.  After a Close, whatever it returned, every Len returns 0 and every
    Next returns false: for a reader created by [newArgsReader] or
    [newByteArgsReader], any calls [cs] before the Close and any calls [cs']
    after it, and for an argsError.  And whatever is called on a reader
    created over the input [p], Len is never negative and never exceeds the
    count announced by [p], which is the count of its array header. *)
Theorem Len_after_Close_and_bound :
  (forall (p : resp.Parser) (sent : option (list (option error)))
          (cs cs' : list call),
      Forall failing
        (snd (run cs' (fst (Close (fst (run cs (newArgsReader p sent))))))))
  /\ (forall (p : resp.Parser) (sent : option (list (option error)))
             (cs cs' : list call),
        Forall failing
          (snd (run cs'
                  (fst (Close (fst (run cs (newByteArgsReader p sent))))))))
  /\ (forall (e : option error) (cs cs' : list call),
        Forall failing
          (snd (run cs' (fst (Close (fst (run cs (newArgsError e))))))))
  /\ (forall (p : resp.Parser) (sent : option (list (option error)))
             (cs : list call),
        Forall (Len_at_most (announced p))
               (snd (run cs (newArgsReader p sent))))
  /\ (forall (p : resp.Parser) (sent : option (list (option error)))
             (cs : list call),
        Forall (Len_at_most (announced p))
               (snd (run cs (newByteArgsReader p sent))))
  /\ (forall (n : nat) (p : resp.Parser),
        announced (resp.ArrayHeader n :: p) = Z.of_nat n).
Proof.
  repeat split.
  - intros p sent cs cs'.
    apply (after_Close_reader (fun a : argsReader => a) sent
             (newArgsReader p sent) cs cs' reader_argsReader); reflexivity.
  - intros p sent cs cs'.
    apply (after_Close_reader embedded sent (newByteArgsReader p sent)
             cs cs' reader_byteArgsReader); reflexivity.
  - intros e cs cs'. destruct (run_argsError e cs) as [-> _]. simpl.
    destruct (run_argsError e cs') as [_ H].
    eapply Forall_impl; [|exact H]. simpl. tauto.
  - intros p sent cs.
    apply (run_invariant (fun a : argsReader => a)
             (fun r => within p (dec r)) _ reader_argsReader).
    + intros r c rep r'. apply step_within.
    + right. left. reflexivity.
  - intros p sent cs.
    apply (run_invariant embedded
             (fun r => within p (dec r)) _ reader_byteArgsReader).
    + intros r c rep r'. apply step_within.
    + right. left. reflexivity.
Qed.

(** ** Len does not change what the other methods return *)

Lemma Len_idem (r : argsReader) :
  argsReader_Len (fst (argsReader_Len r))
  = (fst (argsReader_Len r), snd (argsReader_Len r)).
Proof.
  unfold argsReader_Len. destruct (err r) eqn:E; simpl; [rewrite E; auto|].
  pose proof (Len_Len (dec r)) as H.
  destruct (StreamDecoder_Len (dec r)) as [d1 n]. simpl in *.
  rewrite ?E, H. reflexivity.
Qed.

Lemma Next_Len (tgt : target) (r : argsReader) :
  argsReader_Next tgt (fst (argsReader_Len r)) = argsReader_Next tgt r.
Proof.
  unfold argsReader_Len, argsReader_Next.
  destruct (err r) eqn:E; simpl; [rewrite E; auto|].
  pose proof (Len_Len (dec r)) as H.
  destruct (StreamDecoder_Len (dec r)) as [d1 n]. simpl in *.
  rewrite ?E, H. reflexivity.
Qed.

Lemma Close_Len (r : argsReader) :
  snd (argsReader_Close (fst (argsReader_Len r)))
  = snd (argsReader_Close r)
  /\ fst (argsReader_Len (fst (argsReader_Close (fst (argsReader_Len r)))))
     = fst (argsReader_Len (fst (argsReader_Close r))).
Proof.
  destruct (Len_frame r) as [Ho [Hd He]].
  unfold argsReader_Close. rewrite Ho, Hd, He.
  destruct (once r) eqn:E; cbn [fst snd].
  - split; [reflexivity|]. rewrite Len_idem. reflexivity.
  - assert (Hdec : discard
                     (S (List.length
                           (sd_Parser (dec (fst (argsReader_Len r))))))
                     (dec (fst (argsReader_Len r)))
                   = discard (S (List.length (sd_Parser (dec r)))) (dec r)).
    { unfold argsReader_Len. destruct (err r); [reflexivity|].
      pose proof (discard_Len (dec r)) as H.
      destruct (StreamDecoder_Len (dec r)) as [d1 n]. cbn [fst dec] in *.
      apply H; lia. }
    rewrite Hdec. auto.
Qed.

(** Two readers that differ at most in whether the header was read. *)
Lemma Close_same (r r' : argsReader) :
  fst (argsReader_Len r) = fst (argsReader_Len r') ->
  snd (argsReader_Close r) = snd (argsReader_Close r')
  /\ fst (argsReader_Len (fst (argsReader_Close r)))
     = fst (argsReader_Len (fst (argsReader_Close r'))).
Proof.
  intros H. destruct (Close_Len r) as [<- <-].
  destruct (Close_Len r') as [<- <-]. rewrite H. auto.
Qed.

Lemma Next_same (tgt : target) (r r' : argsReader) :
  fst (argsReader_Len r) = fst (argsReader_Len r') ->
  argsReader_Next tgt r = argsReader_Next tgt r'.
Proof.
  intros H. rewrite <- (Next_Len tgt r), <- (Next_Len tgt r'), H.
  reflexivity.
Qed.

Lemma without_Len_argsReader (cs : list call) :
  forall a a' : argsReader,
    fst (argsReader_Len a) = fst (argsReader_Len a') ->
    others (snd (run cs a)) = snd (run (without_Len cs) a').
Proof.
  induction cs as [|c cs IH]; intros a a' E; [reflexivity|].
  destruct c as [| |val]; cbn [without_Len filter is_Len negb run invoke].
  - destruct (Close_same a a' E) as [E1 E2].
    change (@Close _ argsReader _) with argsReader_Close.
    destruct (argsReader_Close a) as [a1 e].
    destruct (argsReader_Close a') as [a1' e']. simpl in E1, E2. subst e'.
    specialize (IH a1 a1' E2). fold (without_Len cs).
    destruct (run cs a1) as [a2 rs].
    destruct (run (without_Len cs) a1') as [a2' rs'].
    simpl in *. congruence.
  - change (@Len _ argsReader _) with argsReader_Len.
    assert (E' : fst (argsReader_Len (fst (argsReader_Len a)))
                 = fst (argsReader_Len a')) by (rewrite Len_idem; exact E).
    destruct (argsReader_Len a) as [a1 n]. simpl in E'.
    specialize (IH a1 a' E'). fold (without_Len cs).
    destruct (run cs a1) as [a2 rs]. simpl in *. exact IH.
  - change (@Next _ argsReader _ val)
      with (fun args =>
              let '(args1, ok, w) :=
                argsReader_Next
                  (match val with Some t => ToValue t | None => ToNil end)
                  args in
              (args1, ok, match w with WValue v => Some v | _ => None end)).
    cbn beta. rewrite (Next_same _ a a' E).
    destruct (argsReader_Next _ a') as [[a1 ok] w].
    specialize (IH a1 a1 eq_refl). fold (without_Len cs).
    destruct (run cs a1) as [a2 rs].
    destruct (run (without_Len cs) a1) as [a2' rs'].
    simpl in *. congruence.
Qed.

Lemma without_Len_byteArgsReader (cs : list call) :
  forall a a' : byteArgsReader,
    fst (argsReader_Len (embedded a)) = fst (argsReader_Len (embedded a')) ->
    others (snd (run cs a)) = snd (run (without_Len cs) a').
Proof.
  induction cs as [|c cs IH]; intros a a' E; [reflexivity|].
  destruct c as [| |val]; cbn [without_Len filter is_Len negb run invoke].
  - destruct (Close_same _ _ E) as [E1 E2].
    change (@Close _ byteArgsReader _) with byteArgsReader_Close.
    unfold byteArgsReader_Close.
    destruct (argsReader_Close (embedded a)) as [a1 e].
    destruct (argsReader_Close (embedded a')) as [a1' e'].
    simpl in E1, E2. subst e'.
    specialize (IH {| embedded := a1; b := b a |}
                   {| embedded := a1'; b := b a' |} E2).
    fold (without_Len cs).
    destruct (run cs _) as [a2 rs].
    destruct (run (without_Len cs) _) as [a2' rs'].
    simpl in *. congruence.
  - change (@Len _ byteArgsReader _) with byteArgsReader_Len.
    unfold byteArgsReader_Len.
    assert (E' : fst (argsReader_Len (fst (argsReader_Len (embedded a))))
                 = fst (argsReader_Len (embedded a')))
      by (rewrite Len_idem; exact E).
    destruct (argsReader_Len (embedded a)) as [a1 n]. simpl in E'.
    specialize (IH {| embedded := a1; b := b a |} a' E').
    fold (without_Len cs).
    destruct (run cs _) as [a2 rs]. simpl in *. exact IH.
  - change (@Next _ byteArgsReader _) with byteArgsReader_Next.
    assert (EN : byteArgsReader_Next val a = byteArgsReader_Next val a').
    { unfold byteArgsReader_Next. rewrite (Next_same _ _ _ E).
      destruct (b a), (b a'); reflexivity. }
    rewrite EN.
    destruct (byteArgsReader_Next val a') as [[a1 ok] w].
    specialize (IH a1 a1 eq_refl). fold (without_Len cs).
    destruct (run cs a1) as [a2 rs].
    destruct (run (without_Len cs) a1) as [a2' rs'].
    simpl in *. congruence.
Qed.

Lemma without_Len_argsError (cs : list call) (a : argsError) :
  others (snd (run cs a)) = snd (run (without_Len cs) a).
Proof.
  induction cs as [|c cs IH]; [reflexivity|].
  destruct c; cbn [without_Len filter is_Len negb run invoke Close Len Next
                     argsError_Args argsError_Close argsError_Len
                     argsError_Next];
    fold (without_Len cs);
    destruct (run cs a) as [a2 rs];
    destruct (run (without_Len cs) a) as [a2' rs'];
    simpl in *; congruence.
Qed.

(** ** Len counts the values that remain *)

Lemma Len_sd_err (d d1 : StreamDecoder) (n : Z) (e : error) :
  StreamDecoder_Len d = (d1, n) -> sd_err d1 = Some e -> n = 0.
Proof.
  intros HL E. pose proof (Len_Len d) as H. rewrite HL in H. simpl in H.
  rewrite (Len_recorded _ _ E) in H. congruence.
Qed.

(** A Next that returns true leaves one value less. *)
Lemma Next_true_Len (tgt : target) (r r1 : argsReader) (w : written) :
  argsReader_Next tgt r = (r1, true, w) ->
  snd (argsReader_Len r1) = snd (argsReader_Len r) - 1.
Proof.
  unfold argsReader_Next, argsReader_Len. intros H.
  destruct (err r); [discriminate|].
  destruct (StreamDecoder_Len (dec r)) as [d1 n] eqn:HL.
  destruct (negb (n =? 0) && _).
  - destruct (StreamDecoder_Decode ToError d1) as [[d2 e] w0].
    discriminate.
  - destruct (StreamDecoder_Decode tgt d1) as [[d2 e] w0] eqn:HD.
    inversion H; subst. destruct e as [e|]; [discriminate|]. simpl.
    destruct (sd_err d1) as [e|] eqn:E.
    + rewrite (Decode_recorded _ _ _ E) in HD. discriminate.
    + destruct (Len_live _ _ _ HL E) as [Ht Hn].
      rewrite (Decode_known tgt d1 E Ht) in HD.
      destruct (sd_cnt d1 =? sd_max d1); [discriminate|].
      destruct (Decoder_Decode tgt (sd_Parser d1)) as [[p1 e] w1].
      destruct e as [[]|]; inversion HD; subst.
      unfold StreamDecoder_Len. simpl.
      destruct (objconv.Type_eqb (sd_typ d1) objconv.Unknown) eqn:Eq;
        [destruct (sd_typ d1); simpl in Eq; congruence|].
      simpl. lia.
Qed.

Lemma run_stuck_Len {A : Type} {H : Args A} (core : A -> argsReader)
  (cs : list call) (a : A) :
  reader core -> sticky (core a) <> None ->
  snd (argsReader_Len (core (fst (run cs a)))) = 0.
Proof.
  intros Hr Hs.
  destruct (run_invariant core (fun r => sticky r <> None) failing Hr)
    with (cs := cs) (a := a) as [H1 _]; [|assumption|].
  - intros r c rep r' Hne Hstep.
    destruct (step_stuck _ _ _ _ Hne Hstep) as [E Hf].
    split; [congruence|assumption].
  - rewrite (Len_stuck _ H1). reflexivity.
Qed.

Lemma run_remaining {A : Type} {H : Args A} (core : A -> argsReader)
  (sent : option (list (option error))) :
  reader core ->
  forall (cs : list call) (a : A),
    sent_once sent (core a) ->
    snd (argsReader_Len (core (fst (run cs a))))
    = remaining (snd (run cs a)) (snd (argsReader_Len (core a))).
Proof.
  intros Hr. induction cs as [|c cs IH]; intros a Hs; [reflexivity|].
  cbn [run]. pose proof (Hr c a) as Hstep.
  destruct (invoke c a) as [a1 rep]. cbn [fst snd] in Hstep.
  pose proof (step_sent_once _ _ _ _ _ Hs Hstep) as Hs1.
  specialize (IH a1 Hs1).
  pose proof (run_stuck_Len core cs a1 Hr) as Hst.
  destruct (run cs a1) as [a2 rs]. cbn [fst snd] in *.
  pose proof (step_once _ _ _ _ Hstep) as Ho.
  remember (core a) as r0 eqn:E0. remember (core a1) as r1 eqn:E1.
  destruct Hstep as [r|r|r r' val tgt ok w w' HN|r r' val tgt e w w' HN];
    cbn [remaining].
  - apply Hst. apply recorded_sticky. rewrite orb_true_r in Ho.
    unfold sent_once in Hs1. rewrite Ho in Hs1. apply Hs1.
  - rewrite IH, Len_idem. reflexivity.
  - destruct ok.
    + rewrite IH, (Next_true_Len _ _ _ _ HN). reflexivity.
    + apply Hst. eapply Next_false_sticky; eauto.
  - apply Hst. unfold sticky, set_err. simpl. discriminate.
Qed.

Lemma Len_new (p : resp.Parser) (sent : option (list (option error))) :
  snd (argsReader_Len (newArgsReader p sent)) = announced p.
Proof. destruct p as [|[] p]; simpl; try reflexivity; lia. Qed.

(** C7.  Len returns the number of values remaining: on a reader created
    over the input [p], after any calls, it is the announced count less one
    for every Next that returned true, and 0 once a Next has returned false
    or Close was called ([remaining]); an argsError has none.  And Len changes
    nothing that can be observed: removing all calls of Len from a call
    sequence, on any state of the stream, leaves the results of its calls of
    Next and Close (values stored in the destinations included) as they
    were. *)
Theorem Len_counts_and_is_unobservable :
  (forall (p : resp.Parser) (sent : option (list (option error)))
          (cs : list call),
      snd (Len (fst (run cs (newArgsReader p sent))))
      = remaining (snd (run cs (newArgsReader p sent))) (announced p))
  /\ (forall (p : resp.Parser) (sent : option (list (option error)))
             (cs : list call),
        snd (Len (fst (run cs (newByteArgsReader p sent))))
        = remaining (snd (run cs (newByteArgsReader p sent)))
                    (announced p))
  /\ (forall (a : argsError), snd (Len a) = 0)
  /\ (forall (a : argsReader) (cs : list call),
        others (snd (run cs a)) = snd (run (without_Len cs) a))
  /\ (forall (a : byteArgsReader) (cs : list call),
        others (snd (run cs a)) = snd (run (without_Len cs) a))
  /\ (forall (a : argsError) (cs : list call),
        others (snd (run cs a)) = snd (run (without_Len cs) a)).
Proof.
  split; [|split; [|split; [|split; [|split]]]].
  - intros p sent cs.
    rewrite <- (Len_new p sent).
    apply (run_remaining (fun a : argsReader => a) sent reader_argsReader).
    reflexivity.
  - intros p sent cs.
    rewrite <- (Len_new p sent).
    change (snd (Len (fst (run cs (newByteArgsReader p sent)))))
      with (snd (byteArgsReader_Len
                   (fst (run cs (newByteArgsReader p sent))))).
    unfold byteArgsReader_Len.
    pose proof (run_remaining embedded sent reader_byteArgsReader cs
                  (newByteArgsReader p sent)) as H.
    destruct (argsReader_Len (embedded (fst (run cs _)))) as [r1 n].
    simpl in *. apply H. reflexivity.
  - reflexivity.
  - intros a cs. apply without_Len_argsReader. reflexivity.
  - intros a cs. apply without_Len_byteArgsReader. reflexivity.
  - intros a cs. apply without_Len_argsError.
Qed.

(** ** ParseArgs *)

Lemma run_app {A : Type} {H : Args A} (cs1 cs2 : list call) :
  forall a : A,
    run (cs1 ++ cs2) a
    = (fst (run cs2 (fst (run cs1 a))),
       snd (run cs1 a) ++ snd (run cs2 (fst (run cs1 a)))).
Proof.
  induction cs1 as [|c cs1 IH]; intros a; simpl.
  - destruct (run cs2 a). reflexivity.
  - destruct (invoke c a) as [a1 rep]. rewrite IH.
    destruct (run cs1 a1) as [a2 rs]. reflexivity.
Qed.

Lemma ParseArgs_loop_recorded {A : Type} {H : Args A} (dsts : list dst) :
  forall r : recorded A,
  exists (pre : list dst) (rs : list reply),
    in_order dsts pre rs
    /\ calls (fst (ParseArgs_loop r dsts)) = calls r ++ map CallNext pre
    /\ run (map CallNext pre) (subject r)
       = (subject (fst (ParseArgs_loop r dsts)), rs)
    /\ ParseArgs_loop (subject r) dsts
       = (subject (fst (ParseArgs_loop r dsts)),
          snd (ParseArgs_loop r dsts)).
Proof.
  induction dsts as [|d rest IH]; intros r.
  - exists [], []. simpl. rewrite app_nil_r.
    repeat split; constructor.
  - cbn [ParseArgs_loop Next recorded_Args].
    destruct (Next d (subject r)) as [[a1 ok] w] eqn:E. destruct ok; simpl.
    + destruct (IH {| subject := a1; calls := calls r ++ [CallNext d] |})
        as [pre [rs [H1 [H2 [H3 H4]]]]].
      exists (d :: pre), (RetNext true w :: rs). simpl in *.
      destruct (ParseArgs_loop _ rest) as [r2 ws] eqn:E2.
      destruct (ParseArgs_loop a1 rest) as [a2 ws'] eqn:E3.
      simpl in *. rewrite E, H3.
      split; [constructor; assumption|].
      split; [rewrite H2, <- app_assoc; reflexivity|].
      split; [reflexivity|]. congruence.
    + exists [d], [RetNext false w]. simpl. rewrite E.
      repeat split; constructor.
Qed.

Lemma ParseArgs_recorded {A : Type} {H : Args A} (a : A)
  (dsts : list dst) :
  exists (pre : list dst) (rs : list reply),
    in_order dsts pre rs
    /\ calls (fst (fst (ParseArgs (record a) dsts)))
       = map CallNext pre ++ [CallClose]
    /\ run (map CallNext pre ++ [CallClose]) a
       = (fst (fst (ParseArgs a dsts)),
          rs ++ [RetClose (snd (ParseArgs a dsts))]).
Proof.
  destruct (ParseArgs_loop_recorded dsts (record a))
    as [pre [rs [H1 [H2 [H3 H4]]]]].
  exists pre, rs. split; [assumption|].
  unfold ParseArgs. simpl in H3, H4. rewrite H4.
  destruct (ParseArgs_loop (record a) dsts) as [r1 ws]. simpl in *.
  rewrite run_app, H3. simpl.
  destruct (Close (subject r1)) as [a2 e]. simpl.
  split; [rewrite H2; reflexivity|reflexivity].
Qed.

Lemma ParseArgs_once (r : argsReader) (dsts : list dst) :
  once (fst (fst (ParseArgs r dsts))) = true.
Proof.
  unfold ParseArgs. destruct (ParseArgs_loop r dsts) as [r1 ws].
  change (@Close _ argsReader _) with argsReader_Close.
  pose proof (Close_once r1) as [Ho _].
  destruct (argsReader_Close r1). exact Ho.
Qed.

Lemma ParseArgs_once_byte (a : byteArgsReader) (dsts : list dst) :
  once (embedded (fst (fst (ParseArgs a dsts)))) = true.
Proof.
  unfold ParseArgs. destruct (ParseArgs_loop a dsts) as [a1 ws].
  change (@Close _ byteArgsReader _) with byteArgsReader_Close.
  unfold byteArgsReader_Close.
  pose proof (Close_once (embedded a1)) as [Ho _].
  destruct (argsReader_Close (embedded a1)). exact Ho.
Qed.

(** C9.  For every implementation of Args, every argument list [a] and all
    destinations [dsts]: the calls that ParseArgs makes on [a] are Next on
    the destinations in order, up to and including the first that returns
    false ([in_order]), and then Close, once; ParseArgs returns what that
    Close returned.  Int, Int64 and String call Next once and Close once,
    whatever Next returned.  After ParseArgs (so after Int, Int64 and
    String, which are ParseArgs on one destination) the sync.Once of a reader
    has run. *)
Theorem ParseArgs_reads_in_order_then_closes :
  (forall (A : Type) (H : Args A) (a : A) (dsts : list dst),
      exists (pre : list dst) (rs : list reply),
        in_order dsts pre rs
        /\ calls (fst (fst (ParseArgs (record a) dsts)))
           = map CallNext pre ++ [CallClose]
        /\ run (map CallNext pre ++ [CallClose]) a
           = (fst (fst (ParseArgs a dsts)),
              rs ++ [RetClose (snd (ParseArgs a dsts))]))
  /\ (forall (A : Type) (H : Args A) (a : A),
        calls (fst (fst (Int (record a))))
        = [CallNext (Some type_int); CallClose]
        /\ calls (fst (fst (Int64 (record a))))
           = [CallNext (Some type_int64); CallClose]
        /\ calls (fst (fst (String (record a))))
           = [CallNext (Some type_string); CallClose])
  /\ (forall (A : Type) (H : Args A) (a : A),
        fst (fst (Int a)) = fst (fst (ParseArgs a [Some type_int]))
        /\ fst (fst (Int64 a)) = fst (fst (ParseArgs a [Some type_int64]))
        /\ fst (fst (String a))
           = fst (fst (ParseArgs a [Some type_string])))
  /\ (forall (a : argsReader) (dsts : list dst),
        once (fst (fst (ParseArgs a dsts))) = true)
  /\ (forall (a : byteArgsReader) (dsts : list dst),
        once (embedded (fst (fst (ParseArgs a dsts)))) = true).
Proof.
  split; [|split; [|split; [|split]]].
  - intros A H a dsts. apply ParseArgs_recorded.
  - intros A H a. unfold Int, Int64, String, ParseArgs.
    repeat split; simpl;
      match goal with
      | |- context [Next ?d a] =>
          destruct (Next d a) as [[a1 ok] w]; destruct ok; simpl;
          destruct (Close a1); reflexivity
      end.
  - intros A H a. unfold Int, Int64, String.
    destruct (ParseArgs a [Some type_int]) as [[? ?] ?].
    destruct (ParseArgs a [Some type_int64]) as [[? ?] ?].
    destruct (ParseArgs a [Some type_string]) as [[? ?] ?].
    simpl. auto.
  - apply ParseArgs_once.
  - apply ParseArgs_once_byte.
Qed.

(** ** Reading one value *)

Lemma Type_eqb_neq (x y : objconv.Type_) :
  x <> y -> objconv.Type_eqb x y = false.
Proof. destruct x, y; simpl; congruence. Qed.

(** On a stream without error that has values remaining and whose next value
    is no RESP error, [argsReader.Next] is one [Decode] of the codec. *)
Lemma Next_value (tgt : target) (r : argsReader) (d1 : StreamDecoder)
  (n : Z) (rest : resp.Parser) (w : written) :
  err r = None ->
  StreamDecoder_Len (dec r) = (d1, n) -> n <> 0 ->
  fst (resp.ParseType (sd_Parser d1)) <> objconv.Error ->
  Decoder_Decode tgt (sd_Parser d1) = (rest, None, w) ->
  argsReader_Next tgt r
  = ({| dec := {| sd_Parser := rest; sd_err := None; sd_typ := sd_typ d1;
                  sd_cnt := sd_cnt d1 + 1; sd_max := sd_max d1 |};
        err := None; once := once r; done := done r |}, true, w).
Proof.
  intros He HL Hn Ht HD. unfold argsReader_Next. rewrite He, HL.
  rewrite (Type_eqb_neq _ _ Ht), andb_false_r.
  assert (E : sd_err d1 = None).
  { destruct (sd_err d1) as [e|] eqn:E; [|reflexivity].
    exfalso. apply Hn. eapply Len_sd_err; eauto. }
  destruct (Len_live _ _ _ HL E) as [Hk Hm].
  rewrite (Decode_known tgt d1 E Hk).
  replace (sd_cnt d1 =? sd_max d1) with false
    by (symmetry; apply Z.eqb_neq; lia).
  rewrite HD. reflexivity.
Qed.

(** [parse] is the dispatch over the six destination variants. *)
Lemma parse_convert (x : option (list byte)) (t : reflect.rtype) :
  parse x t
  = match variant_of t with
    | Some v => convert v x t
    | None => (None, Some (unsupported t))
    end.
Proof.
  unfold parse, variant_of, convert.
  destruct (reflect.Kind_of t); try reflexivity.
  destruct (reflect.Elem_Kind t); reflexivity.
Qed.


(** C10, as amended.  On a stream without prior error that has at least one
    value remaining ([n] is what Len returns, [d1] the decoder once Len has
    read the header), Next with a nil destination returns true, stores
    nothing, converts nothing and leaves one value less, provided the next
    value is not a RESP error and can be decoded: for an argsReader, any value
    that is completely in the input, which is skipped as a whole; for a
    byteArgsReader, a bulk string, simple string or null value, which is read
    into the byte buffer. *)
Theorem Next_nil_discards :
  (forall (a : argsReader) (d1 : StreamDecoder) (n : Z)
          (rest : resp.Parser),
      err a = None ->
      StreamDecoder_Len (dec a) = (d1, n) -> 1 <= n ->
      fst (resp.ParseType (sd_Parser d1)) <> objconv.Error ->
      resp.skip (sd_Parser d1) 1 = Some rest ->
      let a1 := fst (fst (Next None a)) in
      Next None a = (a1, true, None)
      /\ sd_Parser (dec a1) = rest
      /\ err a1 = None
      /\ snd (Len a1) = n - 1)
  /\ (forall (a : byteArgsReader) (d1 : StreamDecoder) (n : Z)
             (t : resp.token) (x : option (list byte))
             (rest : resp.Parser),
        err (embedded a) = None ->
        StreamDecoder_Len (dec (embedded a)) = (d1, n) -> 1 <= n ->
        sd_Parser d1 = t :: rest ->
        as_bytes t = Some x ->
        let a1 := fst (fst (Next None a)) in
        Next None a = (a1, true, None)
        /\ sd_Parser (dec (embedded a1)) = rest
        /\ err (embedded a1) = None
        /\ b a1 = x
        /\ snd (Len a1) = n - 1).
Proof.
  split.
  - intros a d1 n rest He HL Hn Ht Hs a1.
    assert (HD : Decoder_Decode ToNil (sd_Parser d1)
                 = (rest, None, WNothing))
      by (unfold Decoder_Decode; rewrite Hs; reflexivity).
    assert (Hn0 : n <> 0) by lia.
    pose proof (Next_value ToNil a d1 n rest _ He HL Hn0 Ht HD) as HN.
    pose proof (Next_true_Len _ _ _ _ HN) as HLen.
    assert (HL0 : snd (argsReader_Len a) = n)
      by (unfold argsReader_Len; rewrite He, HL; reflexivity).
    rewrite HL0 in HLen. subst a1.
    change (@Next _ argsReader _ None a)
      with (let '(args1, ok, w) := argsReader_Next ToNil a in
            (args1, ok,
             match w with WValue v => @Some (Value float64) v
                     | _ => None end)).
    rewrite HN. cbn [fst snd dec err sd_Parser]. auto.
  - intros a d1 n t x rest He HL Hn Hp Hx a1.
    assert (HD : Decoder_Decode ToBytes (sd_Parser d1)
                 = (rest, None, WBytes x))
      by (rewrite Hp; destruct t; simpl in *; try discriminate Hx;
          inversion Hx; reflexivity).
    assert (Ht : fst (resp.ParseType (sd_Parser d1)) <> objconv.Error)
      by (rewrite Hp; destruct t; simpl in *; try discriminate Hx;
          discriminate).
    assert (Hn0 : n <> 0) by lia.
    pose proof (Next_value ToBytes _ d1 n rest _ He HL Hn0 Ht HD) as HN.
    pose proof (Next_true_Len _ _ _ _ HN) as HLen.
    assert (HL0 : snd (argsReader_Len (embedded a)) = n)
      by (unfold argsReader_Len; rewrite He, HL; reflexivity).
    rewrite HL0 in HLen. subst a1.
    change (@Next _ byteArgsReader _) with byteArgsReader_Next.
    change (@Len _ byteArgsReader _) with byteArgsReader_Len.
    unfold byteArgsReader_Next, byteArgsReader_Len. rewrite HN.
    cbn [fst snd dec err sd_Parser embedded b].
    destruct (argsReader_Len _) as [r2 m]. simpl in *. auto.
Qed.

End Properties.

(** * Further properties of the argument streams *)

Section Further_properties.

Context {ext : Extern}.

(** ** Len and the number of values read *)

Lemma Len_range (p0 : resp.Parser) (r : argsReader) :
  within p0 (dec r) -> 0 <= snd (argsReader_Len r) <= announced p0.
Proof.
  intros Hw.
  destruct (step_within p0 r _ _ _ Hw (step_Len r)) as [_ H]. exact H.
Qed.

Lemma failing_successes (rs : list reply) :
  Forall failing rs -> successes rs = 0.
Proof.
  induction 1 as [|rep rs Hf _ IH]; [reflexivity|].
  destruct rep as [e|n|[] w]; simpl in *; try assumption. discriminate.
Qed.

Lemma run_stuck_failing {A : Type} {H : Args A} (core : A -> argsReader)
  (cs : list call) (a : A) :
  reader core -> sticky (core a) <> None -> Forall failing (snd (run cs a)).
Proof.
  intros Hr Hs.
  apply (run_invariant core (fun r => sticky r <> None) failing Hr);
    [|assumption].
  intros r c rep r' Hne Hstep.
  destruct (step_stuck _ _ _ _ Hne Hstep) as [E Hf].
  split; [congruence|assumption].
Qed.

Lemma run_successes {A : Type} {H : Args A} (core : A -> argsReader)
  (sent : option (list (option error))) (p0 : resp.Parser) :
  reader core ->
  forall (cs : list call) (a : A),
    sent_once sent (core a) -> within p0 (dec (core a)) ->
    successes (snd (run cs a)) <= snd (argsReader_Len (core a)).
Proof.
  intros Hr. induction cs as [|c cs IH]; intros a Hs Hw.
  - simpl. apply (Len_range p0 _ Hw).
  - cbn [run]. pose proof (Hr c a) as Hstep.
    destruct (invoke c a) as [a1 rep]. cbn [fst snd] in Hstep.
    pose proof (step_sent_once _ _ _ _ _ Hs Hstep) as Hs1.
    destruct (step_within _ _ _ _ _ Hw Hstep) as [Hw1 _].
    specialize (IH a1 Hs1 Hw1).
    pose proof (run_stuck_failing core cs a1 Hr) as Hst.
    destruct (run cs a1) as [a2 rs]. cbn [fst snd] in *.
    pose proof (Len_range p0 _ Hw) as Hn.
    pose proof (step_once _ _ _ _ Hstep) as Ho.
    remember (core a) as r0 eqn:E0. remember (core a1) as r1 eqn:E1.
    destruct Hstep as [r|r|r r' val tgt ok w w' HN|r r' val tgt e w w' HN];
      cbn [successes].
    + rewrite failing_successes; [lia|]. apply Hst. apply recorded_sticky.
      rewrite orb_true_r in Ho. unfold sent_once in Hs1.
      rewrite Ho in Hs1. apply Hs1.
    + rewrite Len_idem in IH. exact IH.
    + destruct ok.
      * rewrite (Next_true_Len _ _ _ _ HN) in IH. lia.
      * rewrite failing_successes; [lia|]. apply Hst.
        eapply Next_false_sticky; eauto.
    + rewrite failing_successes; [lia|]. apply Hst.
      unfold sticky, set_err. simpl. discriminate.
Qed.

Lemma new_invariants (p : resp.Parser)
  (sent : option (list (option error))) :
  sent_once sent (newArgsReader p sent)
  /\ within p (dec (newArgsReader p sent))
  /\ settled (newArgsReader p sent).
Proof.
  split; [reflexivity|]. split; [right; left; reflexivity|].
  intros H. discriminate H.
Qed.

(** X1.  A stream never yields more values than it announces: whatever is
    called on a reader created over the input [p], the calls of Next that
    return true are at most as many as the count announced by [p]. *)
Theorem Next_succeeds_at_most_announced :
  (forall (p : resp.Parser) (sent : option (list (option error)))
          (cs : list call),
      successes (snd (run cs (newArgsReader p sent))) <= announced p)
  /\ (forall (p : resp.Parser) (sent : option (list (option error)))
             (cs : list call),
        successes (snd (run cs (newByteArgsReader p sent))) <= announced p).
Proof.
  split; intros p sent cs; rewrite <- (Len_new p sent);
    destruct (new_invariants p sent) as [H1 [H2 _]].
  - apply (run_successes (fun a : argsReader => a) sent p
             reader_argsReader cs _ H1 H2).
  - apply (run_successes embedded sent p reader_byteArgsReader cs
             (newByteArgsReader p sent) H1 H2).
Qed.

Lemma run_kept {A : Type} {H : Args A} (core : A -> argsReader)
  (sent : option (list (option error))) (p0 : resp.Parser)
  (cs : list call) (a : A) :
  reader core ->
  sent_once sent (core a) -> within p0 (dec (core a)) ->
  sent_once sent (core (fst (run cs a)))
  /\ within p0 (dec (core (fst (run cs a)))).
Proof.
  intros Hr Hs Hw.
  destruct (run_invariant core
              (fun r => sent_once sent r /\ within p0 (dec r))
              (fun _ => True) Hr) with (cs := cs) (a := a) as [H1 _]; auto.
  intros r c rep r' [H1 H2] Hstep. split; [|exact I]. split.
  - eapply step_sent_once; eauto.
  - eapply step_within; eauto.
Qed.

Lemma remaining_le (rs : list reply) :
  forall n : Z, remaining rs n <= Z.max n 0.
Proof.
  induction rs as [|rep rs IH]; intros n; simpl; [lia|].
  destruct rep as [e|m|[] w]; try lia.
  - apply IH.
  - specialize (IH (n - 1)). lia.
Qed.

Lemma Len_never_increases_reader {A : Type} {H : Args A}
  (core : A -> argsReader) (sent : option (list (option error)))
  (p0 : resp.Parser) (cs1 cs2 : list call) (a : A) :
  reader core ->
  sent_once sent (core a) -> within p0 (dec (core a)) ->
  snd (argsReader_Len (core (fst (run (cs1 ++ cs2) a))))
  <= snd (argsReader_Len (core (fst (run cs1 a)))).
Proof.
  intros Hr Hs Hw. rewrite run_app. cbn [fst].
  destruct (run_kept core sent p0 cs1 a Hr Hs Hw) as [Hs1 Hw1].
  rewrite (run_remaining core sent Hr cs2 _ Hs1).
  pose proof (Len_range p0 _ Hw1) as Hn.
  pose proof (remaining_le (snd (run cs2 (fst (run cs1 a))))
                (snd (argsReader_Len (core (fst (run cs1 a)))))).
  lia.
Qed.

Lemma Len_byte (a : byteArgsReader) :
  snd (Len a) = snd (argsReader_Len (embedded a)).
Proof.
  change (@Len _ byteArgsReader _) with byteArgsReader_Len.
  unfold byteArgsReader_Len.
  destruct (argsReader_Len (embedded a)). reflexivity.
Qed.

(** X2.  Len never increases: on a reader created over any input, Len after
    the calls [cs1] followed by [cs2] is at most Len after [cs1]. *)
Theorem Len_never_increases :
  (forall (p : resp.Parser) (sent : option (list (option error)))
          (cs1 cs2 : list call),
      snd (Len (fst (run (cs1 ++ cs2) (newArgsReader p sent))))
      <= snd (Len (fst (run cs1 (newArgsReader p sent)))))
  /\ (forall (p : resp.Parser) (sent : option (list (option error)))
             (cs1 cs2 : list call),
        snd (Len (fst (run (cs1 ++ cs2) (newByteArgsReader p sent))))
        <= snd (Len (fst (run cs1 (newByteArgsReader p sent))))).
Proof.
  split; intros p sent cs1 cs2;
    destruct (new_invariants p sent) as [H1 [H2 _]].
  - apply (Len_never_increases_reader (fun a : argsReader => a) sent p
             cs1 cs2 _ reader_argsReader H1 H2).
  - rewrite !Len_byte.
    apply (Len_never_increases_reader embedded sent p cs1 cs2
             (newByteArgsReader p sent) reader_byteArgsReader H1 H2).
Qed.

(** When Len is 0, Next returns false. *)
Lemma Next_at_Len_0 (tgt : target) (p0 : resp.Parser) (r r1 : argsReader)
  (ok : bool) (w : written) :
  within p0 (dec r) -> snd (argsReader_Len r) = 0 ->
  argsReader_Next tgt r = (r1, ok, w) -> ok = false.
Proof.
  intros Hw H0 HN. destruct ok; [|reflexivity].
  pose proof (Next_true_Len _ _ _ _ HN) as H1.
  pose proof (Next_within _ _ _ _ _ _ Hw HN) as Hw1.
  pose proof (Len_range p0 _ Hw1). lia.
Qed.

(** X3.  Len tells the end of the stream: on a reader created over any
    input, after any calls, if Len returns 0 then Next returns false, for
    every destination. *)
Theorem Next_fails_when_Len_is_0 :
  (forall (p : resp.Parser) (sent : option (list (option error)))
          (cs : list call) (val : dst),
      let a := fst (run cs (newArgsReader p sent)) in
      snd (Len a) = 0 -> snd (fst (Next val a)) = false)
  /\ (forall (p : resp.Parser) (sent : option (list (option error)))
             (cs : list call) (val : dst),
        let a := fst (run cs (newByteArgsReader p sent)) in
        snd (Len a) = 0 -> snd (fst (Next val a)) = false).
Proof.
  split; intros p sent cs val a H0;
    destruct (new_invariants p sent) as [H1 [H2 _]].
  - destruct (run_kept (fun a : argsReader => a) sent p cs _
                reader_argsReader H1 H2) as [_ Hw].
    fold a in Hw.
    change (@Next _ argsReader _ val a)
      with (let '(args1, ok, w) :=
              argsReader_Next
                (match val with Some t => ToValue t | None => ToNil end) a in
            (args1, ok,
             match w with WValue v => @Some (Value float64) v
                     | _ => None end)).
    destruct (argsReader_Next _ a) as [[a1 ok] w] eqn:E. simpl.
    eapply Next_at_Len_0; eauto.
  - destruct (run_kept embedded sent p cs (newByteArgsReader p sent)
                reader_byteArgsReader H1 H2) as [_ Hw].
    fold a in Hw. rewrite Len_byte in H0.
    change (@Next _ byteArgsReader _) with byteArgsReader_Next.
    unfold byteArgsReader_Next.
    destruct (argsReader_Next ToBytes (embedded a)) as [[r1 ok] w] eqn:E.
    rewrite (Next_at_Len_0 _ _ _ _ _ _ Hw H0 E). reflexivity.
Qed.

(** ** What Close reports *)

Lemma Err_None (d : StreamDecoder) :
  StreamDecoder_Err d = None -> sd_err d <> None -> sd_err d = Some End.
Proof.
  unfold StreamDecoder_Err. destruct (sd_err d) as [[]|]; congruence.
Qed.

Lemma step_settled (r r' : argsReader) (c : call) (rep : reply) :
  settled r -> step r c rep r' -> settled r'.
Proof.
  intros Hs Hstep. destruct (once r) eqn:Ho.
  - destruct (Hs Ho) as [Hd _].
    destruct (step_closed _ _ _ _ Ho Hd Hstep) as [-> _]. exact Hs.
  - pose proof (step_once _ _ _ _ Hstep) as Ho1. rewrite Ho in Ho1.
    destruct c; simpl in Ho1;
      try (intros H; rewrite H in Ho1; discriminate).
    inversion Hstep; subst. intros _.
    unfold argsReader_Close. rewrite Ho. cbn [fst dec err].
    assert (Hd : sd_err (discard (S (List.length (sd_Parser (dec r))))
                           (dec r)) <> None)
      by (apply discard_ends; lia).
    split; [exact Hd|].
    destruct (err r); [discriminate|]. intros He.
    apply Err_None; assumption.
Qed.

(** A reader that is stuck with an error reports it from Close. *)
Lemma Close_reports (r : argsReader) :
  settled r -> sticky r <> None ->
  snd (argsReader_Close r) = reported r.
Proof.
  intros Hs Hne. unfold argsReader_Close, reported.
  destruct (once r) eqn:Ho; cbn [snd].
  - destruct (err r) as [e|] eqn:He; [reflexivity|].
    destruct (Hs Ho) as [_ Hd]. specialize (Hd He).
    unfold StreamDecoder_Err. rewrite Hd. reflexivity.
  - destruct (err r) as [e|] eqn:He; [reflexivity|].
    apply sticky_cases in Hne as [[e H]|[_ [e H]]]; [congruence|].
    rewrite (discard_recorded _ _ _ H). reflexivity.
Qed.

Lemma step_reported (r r' : argsReader) (c : call) (rep : reply) :
  settled r -> sticky r <> None -> step r c rep r' ->
  reported r' = reported r /\ closes_with (reported r) rep.
Proof.
  intros Hs Hne Hstep.
  inversion Hstep as [| |? ? ? tgt ? ? ? HN|? ? ? tgt ? ? ? HN]; subst;
    simpl.
  - split; [|apply Close_reports; assumption].
    unfold argsReader_Close, reported.
    destruct (once r) eqn:Ho; cbn [fst err dec]; [reflexivity|].
    destruct (err r) as [e|] eqn:He; [reflexivity|].
    apply sticky_cases in Hne as [[e H]|[_ [e H]]]; [congruence|].
    rewrite (discard_recorded _ _ _ H).
    destruct (StreamDecoder_Err (dec r)); reflexivity.
  - rewrite (Len_stuck _ Hne). auto.
  - rewrite (Next_stuck tgt _ Hne) in HN. inversion HN; subst. auto.
  - rewrite (Next_stuck tgt _ Hne) in HN. discriminate.
Qed.

Lemma run_settled {A : Type} {H : Args A} (core : A -> argsReader)
  (cs : list call) (a : A) :
  reader core -> settled (core a) -> settled (core (fst (run cs a))).
Proof.
  intros Hr Hs.
  destruct (run_invariant core settled (fun _ => True) Hr)
    with (cs := cs) (a := a) as [H1 _]; auto.
  intros r c rep r' H1 Hstep. split; [|exact I].
  eapply step_settled; eauto.
Qed.

Lemma Close_reports_reader {A : Type} {H : Args A} (core : A -> argsReader)
  (a : A) (val : dst) (cs : list call) :
  reader core -> settled (core a) ->
  let a1 := fst (fst (Next val a)) in
  snd (fst (Next val a)) = false ->
  Forall (closes_with (reported (core a1))) (snd (run cs a1)).
Proof.
  intros Hr Hs a1 Hf. pose proof (Hr (CallNext val) a) as Hstep.
  rewrite invoke_Next in Hstep. cbn [fst snd] in Hstep. fold a1 in Hstep.
  rewrite Hf in Hstep.
  pose proof (step_settled _ _ _ _ Hs Hstep) as Hs1.
  pose proof (step_false _ _ _ _ Hstep) as Hne.
  apply (run_invariant core
           (fun r => settled r /\ sticky r <> None
                     /\ reported r = reported (core a1)) _ Hr);
    [|split; [exact Hs1|split; [exact Hne|reflexivity]]].
  intros r c rep r' [H1 [H2 H3]] Hst.
  destruct (step_reported _ _ _ _ H1 H2 Hst) as [E Hq].
  destruct (step_stuck _ _ _ _ H2 Hst) as [E' _].
  split; [|rewrite <- H3; exact Hq].
  split; [eapply step_settled; eauto|]. split; congruence.
Qed.

(** X4.  Close surfaces the error of a failed Next.  On a reader created
    over any input, after any calls [cs]: if Next returns false, then every
    Close among any later calls [cs'] returns the error the reader has to
    report at that point ([reported]): the error stored in the reader (the
    RESP error that was read or the conversion error of [parse]) or else the
    error of the decoder, which is nil if the stream was at its end. *)
Theorem Close_reports_the_failure :
  (forall (p : resp.Parser) (sent : option (list (option error)))
          (cs cs' : list call) (val : dst),
      let a := fst (run cs (newArgsReader p sent)) in
      let a1 := fst (fst (Next val a)) in
      snd (fst (Next val a)) = false ->
      Forall (closes_with (reported a1)) (snd (run cs' a1)))
  /\ (forall (p : resp.Parser) (sent : option (list (option error)))
             (cs cs' : list call) (val : dst),
        let a := fst (run cs (newByteArgsReader p sent)) in
        let a1 := fst (fst (Next val a)) in
        snd (fst (Next val a)) = false ->
        Forall (closes_with (reported (embedded a1))) (snd (run cs' a1))).
Proof.
  split; intros p sent cs cs' val a a1;
    destruct (new_invariants p sent) as [_ [_ H3]].
  - apply (Close_reports_reader (fun a : argsReader => a) a val cs'
             reader_argsReader).
    apply (run_settled (fun a : argsReader => a) cs _ reader_argsReader H3).
  - apply (Close_reports_reader embedded a val cs' reader_byteArgsReader).
    apply (run_settled embedded cs (newByteArgsReader p sent)
             reader_byteArgsReader H3).
Qed.

(** ** A byteArgsReader stays inside its frame *)

Lemma skip_readable (todo rest : resp.Parser) :
  forallb readable todo = true ->
  resp.skip (todo ++ rest) (List.length todo) = Some rest.
Proof.
  induction todo as [|t todo IH]; simpl; intros H.
  - apply skip_0.
  - apply andb_prop in H as [Ht H]. destruct t; try discriminate; auto.
Qed.

(** After [Len] the decoder has counted off its header or is at the end. *)
Lemma Len_in_step (vals rest : resp.Parser) (d : StreamDecoder) :
  forallb readable vals = true -> in_step vals rest d ->
  let d1 := fst (StreamDecoder_Len d) in
  (sd_err d1 = None /\ sd_typ d1 = objconv.Array
   /\ exists todo : resp.Parser,
        sd_Parser d1 = todo ++ rest
        /\ forallb readable todo = true
        /\ sd_max d1 - sd_cnt d1 = Z.of_nat (List.length todo)
        /\ snd (StreamDecoder_Len d) = Z.of_nat (List.length todo))
  \/ (sd_err d1 = Some End /\ sd_Parser d1 = rest
      /\ snd (StreamDecoder_Len d) = 0).
Proof.
  intros Hv [->|[[He [Ht [todo [Hp [Hr Hn]]]]]|[He Hp]]] d1; subst d1.
  - left. unfold frame. simpl. repeat split; auto.
    exists vals. repeat split; auto; lia.
  - left. unfold StreamDecoder_Len. rewrite He, Ht. simpl.
    repeat split; auto. exists todo. auto.
  - right. rewrite (Len_recorded _ _ He). auto.
Qed.

Lemma Next_in_step (vals rest : resp.Parser) (r r1 : argsReader)
  (ok : bool) (w : written) :
  forallb readable vals = true -> in_step vals rest (dec r) ->
  argsReader_Next ToBytes r = (r1, ok, w) ->
  in_step vals rest (dec r1).
Proof.
  intros Hv Hs HN. unfold argsReader_Next in HN.
  destruct (err r); [inversion HN; subst; assumption|].
  pose proof (Len_in_step vals rest _ Hv Hs) as HL.
  destruct (StreamDecoder_Len (dec r)) as [d1 n]. cbn [fst snd] in HL.
  destruct HL as [[He [Ht [todo [Hp [Hr [Hn ->]]]]]]|[He [Hp ->]]].
  - assert (Hk : sd_typ d1 <> objconv.Unknown) by (rewrite Ht; discriminate).
    destruct todo as [|t todo].
    + simpl in HN. rewrite (Decode_known ToBytes d1 He Hk) in HN.
      replace (sd_cnt d1 =? sd_max d1) with true in HN
        by (symmetry; apply Z.eqb_eq; simpl in Hn; lia).
      inversion HN; subst. right; right. simpl. auto.
    + simpl in Hr. apply andb_prop in Hr as [Hrt Hr].
      assert (Hne : sd_max d1 - sd_cnt d1 <> 0)
        by (rewrite Hn; simpl; lia).
      replace (Z.of_nat (List.length (t :: todo)) =? 0) with false in HN
        by (symmetry; apply Z.eqb_neq; simpl; lia).
      rewrite Hp in HN. simpl in HN.
      assert (Hlen : sd_max d1 - (sd_cnt d1 + 1)
                     = Z.of_nat (List.length todo))
        by (simpl in Hn; lia).
      destruct t; try discriminate; simpl in HN.
      * rewrite (Decode_known ToBytes d1 He Hk) in HN.
        replace (sd_cnt d1 =? sd_max d1) with false in HN
          by (symmetry; apply Z.eqb_neq; lia).
        rewrite Hp in HN. simpl in HN. inversion HN; subst.
        right; left. simpl. repeat split; auto. exists todo. auto.
      * rewrite (Decode_error d1 msg (todo ++ rest) He Hk Hne Hp) in HN.
        inversion HN; subst.
        right; left. simpl. repeat split; auto. exists todo. auto.
      * rewrite (Decode_known ToBytes d1 He Hk) in HN.
        replace (sd_cnt d1 =? sd_max d1) with false in HN
          by (symmetry; apply Z.eqb_neq; lia).
        rewrite Hp in HN. simpl in HN. inversion HN; subst.
        right; left. simpl. repeat split; auto. exists todo. auto.
      * rewrite (Decode_known ToBytes d1 He Hk) in HN.
        replace (sd_cnt d1 =? sd_max d1) with false in HN
          by (symmetry; apply Z.eqb_neq; lia).
        rewrite Hp in HN. simpl in HN. inversion HN; subst.
        right; left. simpl. repeat split; auto. exists todo. auto.
  - simpl in HN. rewrite (Decode_recorded _ _ _ He) in HN.
    inversion HN; subst. right; right. simpl. auto.
Qed.

Lemma Close_live (rest : resp.Parser) (r : argsReader)
  (d1 : StreamDecoder) (todo : resp.Parser) :
  once r = false ->
  StreamDecoder_Len (dec r) = (d1, Z.of_nat (List.length todo)) ->
  sd_err d1 = None -> sd_Parser d1 = todo ++ rest ->
  forallb readable todo = true ->
  sd_err (dec (fst (argsReader_Close r))) = Some End
  /\ sd_Parser (dec (fst (argsReader_Close r))) = rest.
Proof.
  intros Ho E He Hp Hr.
  assert (Hsk : resp.skip (sd_Parser d1) (List.length todo) = Some rest)
    by (rewrite Hp; apply skip_readable; assumption).
  destruct (Close_discards r d1 _ rest Ho E He Hsk) as [H1 H2].
  split; [|exact H1]. apply Err_None; [exact H2|].
  unfold argsReader_Close. rewrite Ho. cbn [fst dec].
  apply discard_ends. lia.
Qed.

Lemma Close_in_step (vals rest : resp.Parser) (r : argsReader) :
  forallb readable vals = true -> once r = false ->
  in_step vals rest (dec r) ->
  sd_err (dec (fst (argsReader_Close r))) = Some End
  /\ sd_Parser (dec (fst (argsReader_Close r))) = rest.
Proof.
  intros Hv Ho [H|[[He [Ht [todo [Hp [Hr Hn]]]]]|[He Hp]]].
  - apply (Close_live rest r
             {| sd_Parser := vals ++ rest; sd_err := None;
                sd_typ := objconv.Array; sd_cnt := 0;
                sd_max := Z.of_nat (List.length vals) |} vals);
      auto.
    rewrite H. unfold frame, StreamDecoder_Len, StreamDecoder_init,
      newStreamDecoder. simpl. rewrite Z.sub_0_r. reflexivity.
  - apply (Close_live rest r (dec r) todo); auto.
    unfold StreamDecoder_Len. rewrite He, Ht. simpl. f_equal. exact Hn.
  - unfold argsReader_Close. rewrite Ho. cbn [fst dec].
    rewrite (discard_recorded _ _ _ He). auto.
Qed.

Lemma invoke_framed (vals rest : resp.Parser) (c : call)
  (a : byteArgsReader) :
  forallb readable vals = true ->
  framed vals rest (embedded a) ->
  framed vals rest (embedded (fst (invoke c a))).
Proof.
  intros Hv Hf. unfold framed in *.
  destruct (once (embedded a)) eqn:Ho.
  - pose proof (reader_byteArgsReader c a) as Hstep.
    assert (Hd : sd_err (dec (embedded a)) <> None)
      by (destruct Hf as [-> _]; discriminate).
    destruct (step_closed _ _ _ _ Ho Hd Hstep) as [-> _].
    rewrite Ho. exact Hf.
  - destruct c as [| |val]; simpl.
    + unfold byteArgsReader_Close.
      pose proof (Close_in_step vals rest _ Hv Ho Hf) as H.
      pose proof (Close_once (embedded a)) as [Ho1 _].
      destruct (argsReader_Close (embedded a)) as [r1 e]. simpl in *.
      rewrite Ho1. exact H.
    + unfold byteArgsReader_Len.
      pose proof (Len_frame (embedded a)) as [Ho1 _].
      assert (Hs : in_step vals rest
                     (dec (fst (argsReader_Len (embedded a))))).
      { unfold argsReader_Len. destruct (err (embedded a)); [exact Hf|].
        pose proof (Len_in_step vals rest _ Hv Hf) as HL.
        destruct (StreamDecoder_Len (dec (embedded a))) as [d1 n].
        cbn [fst snd dec] in *.
        destruct HL as [[He [Ht [todo [Hp [Hr [Hn _]]]]]]|[He [Hp _]]].
        - right; left. repeat split; auto. exists todo. auto.
        - right; right. auto. }
      destruct (argsReader_Len (embedded a)) as [r1 n]. simpl in *.
      rewrite Ho1, Ho. exact Hs.
    + unfold byteArgsReader_Next.
      destruct (argsReader_Next ToBytes (embedded a)) as [[r1 ok] w] eqn:E.
      pose proof (Next_in_step vals rest _ _ _ _ Hv Hf E) as Hs.
      destruct (Next_frame _ _ _ _ _ E) as [Ho1 _].
      assert (Hr1 : if once r1 then
                      sd_err (dec r1) = Some End /\ sd_Parser (dec r1) = rest
                    else in_step vals rest (dec r1))
        by (rewrite Ho1, Ho; exact Hs).
      destruct ok; simpl; [|exact Hr1].
      destruct val as [t|]; simpl; [|exact Hr1].
      destruct (parse _ t) as [v [e|]]; simpl; exact Hr1.
Qed.

Lemma run_framed (vals rest : resp.Parser) (cs : list call) :
  forallb readable vals = true ->
  forall a : byteArgsReader,
    framed vals rest (embedded a) ->
    framed vals rest (embedded (fst (run cs a))).
Proof.
  intros Hv. induction cs as [|c cs IH]; intros a Hf; [exact Hf|].
  cbn [run]. pose proof (invoke_framed vals rest c a Hv Hf) as H1.
  destruct (invoke c a) as [a1 rep]. specialize (IH a1 H1).
  destruct (run cs a1) as [a2 rs]. exact IH.
Qed.

(** X5.  A byteArgsReader keeps the connection aligned.  On a reader
    created over an array of bulk strings, simple strings, null values and
    RESP errors that is followed on the connection by [rest], whatever is
    called and whatever the destinations and the outcome of the conversions:
    the reader never reads into [rest]; and once Close has been called the
    parser is exactly in front of [rest] and the done channel has received
    one value, which is nil. *)
Theorem byteArgsReader_keeps_the_frame :
  forall (vals rest : resp.Parser) (sent : option (list (option error)))
         (cs : list call),
    forallb readable vals = true ->
    let a := fst (run cs (newByteArgsReader (frame vals rest) sent)) in
    (exists todo : resp.Parser,
        sd_Parser (dec (embedded a)) = todo ++ rest)
    /\ (existsb is_Close cs = true ->
        sd_Parser (dec (embedded a)) = rest
        /\ done (embedded a) = option_map (fun s => s ++ [None]) sent).
Proof.
  intros vals rest sent cs Hv a.
  assert (Hf : framed vals rest (embedded a)).
  { apply run_framed; [exact Hv|]. left. reflexivity. }
  pose proof (run_once embedded reader_byteArgsReader cs
                (newByteArgsReader (frame vals rest) sent)) as Ho.
  fold a in Ho. simpl in Ho.
  destruct (new_invariants (frame vals rest) sent) as [H1 [H2 _]].
  destruct (run_kept embedded sent (frame vals rest) cs
              (newByteArgsReader (frame vals rest) sent)
              reader_byteArgsReader H1 H2) as [Hs _].
  fold a in Hs. unfold framed in Hf. unfold sent_once in Hs.
  split.
  - destruct (once (embedded a)).
    + exists []. apply Hf.
    + destruct Hf as [H|[[_ [_ [todo [Hp _]]]]|[_ Hp]]].
      * exists (resp.ArrayHeader (List.length vals) :: vals).
        rewrite H. reflexivity.
      * exists todo. exact Hp.
      * exists []. exact Hp.
  - intros Hc. rewrite Hc in Ho. rewrite Ho in Hf, Hs.
    destruct Hf as [He Hp]. destruct Hs as [_ Hd].
    split; [exact Hp|]. rewrite Hd. unfold StreamDecoder_Err.
    rewrite He. reflexivity.
Qed.

(** ** ParseArgs at the end of a stream and on a RESP error *)

(** At the end of a stream Next returns false and records the end. *)
Lemma Next_exhausted (tgt : target) (r : argsReader) (d1 : StreamDecoder) :
  err r = None ->
  StreamDecoder_Len (dec r) = (d1, 0) -> sd_err d1 = None ->
  exists r1,
    argsReader_Next tgt r = (r1, false, WNothing)
    /\ err r1 = None /\ sd_err (dec r1) = Some End.
Proof.
  intros He HL Hd. unfold argsReader_Next. rewrite He, HL. simpl.
  destruct (Len_live _ _ _ HL Hd) as [Hk Hn].
  rewrite (Decode_known tgt d1 Hd Hk).
  replace (sd_cnt d1 =? sd_max d1) with true
    by (symmetry; apply Z.eqb_eq; lia).
  eexists. split; [reflexivity|]. simpl. auto.
Qed.

Lemma Close_at_end (r : argsReader) :
  err r = None -> sd_err (dec r) = Some End ->
  snd (argsReader_Close r) = None.
Proof.
  intros He Hd. unfold argsReader_Close.
  destruct (once r); cbn [snd]; [exact He|].
  rewrite He, (discard_recorded _ _ _ Hd).
  unfold StreamDecoder_Err. rewrite Hd. reflexivity.
Qed.

Lemma Close_err (r : argsReader) (x : error) :
  err r = Some x -> snd (argsReader_Close r) = Some x.
Proof.
  intros He. unfold argsReader_Close.
  destruct (once r); cbn [snd]; rewrite He; reflexivity.
Qed.

(** What ParseArgs returns when its first Next fails. *)
Lemma ParseArgs_stops_argsReader (a a1 : argsReader) (d : dst)
  (ds : list dst) (w : written) :
  argsReader_Next (match d with Some t => ToValue t | None => ToNil end) a
  = (a1, false, w) ->
  ParseArgs a (d :: ds)
  = (fst (argsReader_Close a1),
     [match w with WValue v => Some v | _ => None end],
     snd (argsReader_Close a1)).
Proof.
  intros HN. unfold ParseArgs. cbn [ParseArgs_loop].
  change (@Next _ argsReader _ d a)
    with (let '(args1, ok, w) :=
            argsReader_Next
              (match d with Some t => ToValue t | None => ToNil end) a in
          (args1, ok,
           match w with WValue v => @Some (Value float64) v
                   | _ => None end)).
  rewrite HN. cbn [negb].
  change (@Close _ argsReader _) with argsReader_Close.
  destruct (argsReader_Close a1). reflexivity.
Qed.

Lemma ParseArgs_stops_byteArgsReader (a : byteArgsReader) (r1 : argsReader)
  (d : dst) (ds : list dst) :
  argsReader_Next ToBytes (embedded a) = (r1, false, WNothing) ->
  snd (fst (ParseArgs a (d :: ds))) = [None]
  /\ snd (ParseArgs a (d :: ds)) = snd (argsReader_Close r1)
  /\ embedded (fst (fst (ParseArgs a (d :: ds))))
     = fst (argsReader_Close r1).
Proof.
  intros HN. unfold ParseArgs. cbn [ParseArgs_loop].
  change (@Next _ byteArgsReader _) with byteArgsReader_Next.
  unfold byteArgsReader_Next. rewrite HN. cbn [negb].
  change (@Close _ byteArgsReader _) with byteArgsReader_Close.
  unfold byteArgsReader_Close. cbn [embedded].
  destruct (argsReader_Close r1). auto.
Qed.

(** X6.  At the end of a stream the helpers report no error.  On a stream
    without error that has no value left (Len is 0; an empty argument list
    for one), ParseArgs with at least one destination stores nothing and
    returns nil: so Int, Int64 and String return the zero value together
    with a nil error. *)
Theorem ParseArgs_at_end_of_stream :
  (forall (a : argsReader) (d1 : StreamDecoder) (d : dst) (ds : list dst),
      err a = None ->
      StreamDecoder_Len (dec a) = (d1, 0) -> sd_err d1 = None ->
      snd (fst (ParseArgs a (d :: ds))) = [None]
      /\ snd (ParseArgs a (d :: ds)) = None
      /\ (snd (fst (Int a)), snd (Int a)) = (0, None)
      /\ (snd (fst (Int64 a)), snd (Int64 a)) = (0, None)
      /\ (snd (fst (String a)), snd (String a)) = (EmptyString, None))
  /\ (forall (a : byteArgsReader) (d1 : StreamDecoder) (d : dst)
             (ds : list dst),
        err (embedded a) = None ->
        StreamDecoder_Len (dec (embedded a)) = (d1, 0) ->
        sd_err d1 = None ->
        snd (fst (ParseArgs a (d :: ds))) = [None]
        /\ snd (ParseArgs a (d :: ds)) = None
        /\ (snd (fst (Int a)), snd (Int a)) = (0, None)
        /\ (snd (fst (Int64 a)), snd (Int64 a)) = (0, None)
        /\ (snd (fst (String a)), snd (String a)) = (EmptyString, None)).
Proof.
  split.
  - intros a d1 d ds He HL Hd.
    assert (K : forall d ds,
               snd (fst (ParseArgs a (d :: ds))) = [None]
               /\ snd (ParseArgs a (d :: ds)) = None).
    { intros d' ds'.
      destruct (Next_exhausted
                  (match d' with Some t => ToValue t | None => ToNil end)
                  a d1 He HL Hd) as [r1 [HN [He1 Hd1]]].
      rewrite (ParseArgs_stops_argsReader _ _ _ _ _ HN). cbn [fst snd].
      split; [reflexivity|]. apply Close_at_end; assumption. }
    split; [apply K|]. split; [apply K|].
    unfold Int, Int64, String.
    pose proof (K (Some type_int) []) as [K1 K2].
    pose proof (K (Some type_int64) []) as [K3 K4].
    pose proof (K (Some type_string) []) as [K5 K6].
    unfold dst in *.
    destruct (ParseArgs a [Some type_int]) as [[? ?] ?].
    destruct (ParseArgs a [Some type_int64]) as [[? ?] ?].
    destruct (ParseArgs a [Some type_string]) as [[? ?] ?].
    simpl in *. subst. auto.
  - intros a d1 d ds He HL Hd.
    assert (K : forall d ds,
               snd (fst (ParseArgs a (d :: ds))) = [None]
               /\ snd (ParseArgs a (d :: ds)) = None).
    { intros d' ds'.
      destruct (Next_exhausted ToBytes (embedded a) d1 He HL Hd)
        as [r1 [HN [He1 Hd1]]].
      destruct (ParseArgs_stops_byteArgsReader a r1 d' ds' HN)
        as [H1 [H2 _]].
      split; [exact H1|]. rewrite H2. apply Close_at_end; assumption. }
    split; [apply K|]. split; [apply K|].
    unfold Int, Int64, String.
    pose proof (K (Some type_int) []) as [K1 K2].
    pose proof (K (Some type_int64) []) as [K3 K4].
    pose proof (K (Some type_string) []) as [K5 K6].
    unfold dst in *.
    destruct (ParseArgs a [Some type_int]) as [[? ?] ?].
    destruct (ParseArgs a [Some type_int64]) as [[? ?] ?].
    destruct (ParseArgs a [Some type_string]) as [[? ?] ?].
    simpl in *. subst. auto.
Qed.

(** X7.  The helpers return a RESP error.  On a stream without prior
    error that has values remaining and whose next value is a RESP error
    with message [msg], ParseArgs with at least one destination stores
    nothing and returns that error; so do Int, Int64 and String, next to the
    zero value. *)
Theorem ParseArgs_on_RESP_error :
  (forall (a : argsReader) (d1 : StreamDecoder) (n : Z) (msg : string)
          (rest : resp.Parser) (d : dst) (ds : list dst),
      err a = None ->
      StreamDecoder_Len (dec a) = (d1, n) -> n <> 0 ->
      sd_Parser d1 = resp.Error msg :: rest ->
      snd (fst (ParseArgs a (d :: ds))) = [None]
      /\ snd (ParseArgs a (d :: ds)) = Some (RespError msg)
      /\ (snd (fst (Int a)), snd (Int a)) = (0, Some (RespError msg))
      /\ (snd (fst (Int64 a)), snd (Int64 a)) = (0, Some (RespError msg))
      /\ (snd (fst (String a)), snd (String a))
         = (EmptyString, Some (RespError msg)))
  /\ (forall (a : byteArgsReader) (d1 : StreamDecoder) (n : Z)
             (msg : string) (rest : resp.Parser) (d : dst) (ds : list dst),
        err (embedded a) = None ->
        StreamDecoder_Len (dec (embedded a)) = (d1, n) -> n <> 0 ->
        sd_Parser d1 = resp.Error msg :: rest ->
        snd (fst (ParseArgs a (d :: ds))) = [None]
        /\ snd (ParseArgs a (d :: ds)) = Some (RespError msg)
        /\ (snd (fst (Int a)), snd (Int a)) = (0, Some (RespError msg))
        /\ (snd (fst (Int64 a)), snd (Int64 a))
           = (0, Some (RespError msg))
        /\ (snd (fst (String a)), snd (String a))
           = (EmptyString, Some (RespError msg))).
Proof.
  split.
  - intros a d1 n msg rest d ds He HL Hn Hp.
    assert (K : forall d ds,
               snd (fst (ParseArgs a (d :: ds))) = [None]
               /\ snd (ParseArgs a (d :: ds)) = Some (RespError msg)).
    { intros d' ds'.
      destruct (Next_on_error
                  (match d' with Some t => ToValue t | None => ToNil end)
                  a d1 n msg rest He HL Hn Hp) as [r1 [HN [He1 _]]].
      rewrite (ParseArgs_stops_argsReader _ _ _ _ _ HN). cbn [fst snd].
      split; [reflexivity|]. apply Close_err; assumption. }
    split; [apply K|]. split; [apply K|].
    unfold Int, Int64, String.
    pose proof (K (Some type_int) []) as [K1 K2].
    pose proof (K (Some type_int64) []) as [K3 K4].
    pose proof (K (Some type_string) []) as [K5 K6].
    unfold dst in *.
    destruct (ParseArgs a [Some type_int]) as [[? ?] ?].
    destruct (ParseArgs a [Some type_int64]) as [[? ?] ?].
    destruct (ParseArgs a [Some type_string]) as [[? ?] ?].
    simpl in *. subst. auto.
  - intros a d1 n msg rest d ds He HL Hn Hp.
    assert (K : forall d ds,
               snd (fst (ParseArgs a (d :: ds))) = [None]
               /\ snd (ParseArgs a (d :: ds)) = Some (RespError msg)).
    { intros d' ds'.
      destruct (Next_on_error ToBytes (embedded a) d1 n msg rest
                  He HL Hn Hp) as [r1 [HN [He1 _]]].
      destruct (ParseArgs_stops_byteArgsReader a r1 d' ds' HN)
        as [H1 [H2 _]].
      split; [exact H1|]. rewrite H2. apply Close_err; assumption. }
    split; [apply K|]. split; [apply K|].
    unfold Int, Int64, String.
    pose proof (K (Some type_int) []) as [K1 K2].
    pose proof (K (Some type_int64) []) as [K3 K4].
    pose proof (K (Some type_string) []) as [K5 K6].
    unfold dst in *.
    destruct (ParseArgs a [Some type_int]) as [[? ?] ?].
    destruct (ParseArgs a [Some type_int64]) as [[? ?] ?].
    destruct (ParseArgs a [Some type_string]) as [[? ?] ?].
    simpl in *. subst. auto.
Qed.

(** ** What a conversion stores *)

Lemma parse_stores (x : option (list byte)) (t : reflect.rtype) :
  (snd (parse x t) = None -> fst (parse x t) <> None)
  /\ (snd (parse x t) <> None -> fst (parse x t) = None).
Proof.
  rewrite parse_convert.
  destruct (variant_of t) as [[]|]; simpl;
    unfold parseBool, parseInt, parseUint, parseFloat, parseString,
      parseBytes;
    try destruct (objutil_ParseInt _) as [i [e|]];
    try destruct (strconv_ParseUint _) as [u [e|]];
    try destruct (strconv_ParseFloat _) as [f [e|]];
    simpl; split; congruence.
Qed.

(** X8.  byteArgsReader.Next stores a value in its destination exactly when
    it returns true for a destination that is not nil: a Next that returns
    false, whether the read or the conversion failed, leaves the destination
    as it was. *)
Theorem Next_stores_iff_true :
  forall (a : byteArgsReader) (val : dst),
    let ok := snd (fst (Next val a)) in
    let w := snd (Next val a) in
    (ok = false -> w = None)
    /\ (val = None -> w = None)
    /\ (ok = true -> val <> None -> w <> None).
Proof.
  intros a val.
  change (@Next _ byteArgsReader _) with byteArgsReader_Next.
  unfold byteArgsReader_Next.
  destruct (argsReader_Next ToBytes (embedded a)) as [[r1 ok1] w1].
  destruct ok1; [|simpl; repeat split; congruence].
  destruct val as [t|]; [|simpl; repeat split; congruence].
  pose proof (parse_stores
                match w1 with
                | WBytes x => x
                | _ => match b a with None => Some [] | Some _ => Some [] end
                end t) as [H1 H2].
  destruct (parse _ t) as [v [e|]]; simpl in *.
  - repeat split; try congruence. intros _. apply H2. discriminate.
  - repeat split; try congruence. intros _ _. apply H1. reflexivity.
Qed.

(** ** Integer destinations *)

Lemma half_pow (n : Z) : 0 < n -> 2 ^ n / 2 = 2 ^ (n - 1).
Proof.
  intros Hn. replace n with (Z.succ (n - 1)) at 1 by lia.
  rewrite Z.pow_succ_r by lia. rewrite Z.mul_comm, Z.div_mul; lia.
Qed.

Lemma wrap_signed (n i : Z) :
  0 < n ->
  let m := 2 ^ n in
  let v := (i + m / 2) mod m - m / 2 in
  fits_signed n v
  /\ (v - i) mod m = 0
  /\ (fits_signed n i -> v = i).
Proof.
  intros Hn m v. unfold fits_signed. subst v.
  assert (Hm : 0 < m) by (apply Z.pow_pos_nonneg; lia).
  assert (Hh : m / 2 = 2 ^ (n - 1)) by (apply half_pow; exact Hn).
  assert (H2 : m = 2 * 2 ^ (n - 1)).
  { unfold m. replace n with (Z.succ (n - 1)) at 1 by lia.
    apply Z.pow_succ_r. lia. }
  rewrite Hh.
  pose proof (Z.mod_pos_bound (i + 2 ^ (n - 1)) m Hm) as Hb.
  split; [lia|]. split.
  - rewrite (Z.mod_eq (i + 2 ^ (n - 1)) m) by lia.
    replace (i + 2 ^ (n - 1) - m * ((i + 2 ^ (n - 1)) / m)
             - 2 ^ (n - 1) - i)
      with (- ((i + 2 ^ (n - 1)) / m) * m) by ring.
    apply Z.mod_mul. lia.
  - intros Hi. rewrite Z.mod_small by lia. lia.
Qed.

Lemma bits_pos (k : reflect.Kind) : 0 < bits k.
Proof. destruct k; simpl; lia. Qed.

(** X9.  A signed integer destination takes the parsed value without a
    range check.  When byteArgsReader.Next has read the bytes [x] and the
    destination is a signed integer of [bits] bits, Next returns true exactly
    when objutil.ParseInt accepts [x] (else it returns false and keeps that
    error); the value stored is the parsed int64 wrapped to the width of the
    destination: it is in the range of the destination, equal to the parsed
    value modulo 2^bits, and the parsed value itself when that fits. *)
Theorem Next_signed_wraps :
  forall (a : byteArgsReader) (t : reflect.rtype) (r1 : argsReader)
         (w : written),
    argsReader_Next ToBytes (embedded a) = (r1, true, w) ->
    variant_of t = Some DstSigned ->
    let x := match w with WBytes x => x | _ => Some [] end in
    let n := bits (reflect.Kind_of t) in
    match objutil_ParseInt (bytes_of x) with
    | (_, Some e) =>
        Next (Some t) a
        = ({| embedded := set_err r1 e; b := x |}, false, None)
    | (i, None) =>
        exists v : Z,
          Next (Some t) a = ({| embedded := r1; b := x |}, true, Some (VInt v))
          /\ fits_signed n v
          /\ (v - i) mod 2 ^ n = 0
          /\ (fits_signed n i -> v = i)
    end.
Proof.
  intros a t r1 w HN Hv x n.
  change (@Next _ byteArgsReader _) with byteArgsReader_Next.
  unfold byteArgsReader_Next. rewrite HN, parse_convert, Hv.
  assert (Hx : match w with
               | WBytes y => y
               | _ => match b a with None => Some [] | Some _ => Some [] end
               end = x) by (unfold x; destruct (b a), w; reflexivity).
  rewrite Hx. unfold convert, parseInt.
  destruct (objutil_ParseInt (bytes_of x)) as [i [e|]]; [reflexivity|].
  unfold SetInt. eexists. split; [reflexivity|].
  apply (wrap_signed n i). apply bits_pos.
Qed.

(** X10.  An unsigned integer destination takes the parsed value without a
    range check.  When byteArgsReader.Next has read the bytes [x] and the
    destination is an unsigned integer of [bits] bits, Next returns true
    exactly when strconv.ParseUint accepts [x] (else it returns false and
    keeps that error); the value stored is the parsed uint64 modulo 2^bits,
    which is the parsed value itself when that fits. *)
Theorem Next_unsigned_wraps :
  forall (a : byteArgsReader) (t : reflect.rtype) (r1 : argsReader)
         (w : written),
    argsReader_Next ToBytes (embedded a) = (r1, true, w) ->
    variant_of t = Some DstUnsigned ->
    let x := match w with WBytes x => x | _ => Some [] end in
    let n := bits (reflect.Kind_of t) in
    match strconv_ParseUint (string_of_list_byte (bytes_of x)) with
    | (_, Some e) =>
        Next (Some t) a
        = ({| embedded := set_err r1 e; b := x |}, false, None)
    | (u, None) =>
        Next (Some t) a
        = ({| embedded := r1; b := x |}, true, Some (VUint (u mod 2 ^ n)))
        /\ fits_unsigned n (u mod 2 ^ n)
        /\ (fits_unsigned n u -> u mod 2 ^ n = u)
    end.
Proof.
  intros a t r1 w HN Hv x n.
  change (@Next _ byteArgsReader _) with byteArgsReader_Next.
  unfold byteArgsReader_Next. rewrite HN, parse_convert, Hv.
  assert (Hx : match w with
               | WBytes y => y
               | _ => match b a with None => Some [] | Some _ => Some [] end
               end = x) by (unfold x; destruct (b a), w; reflexivity).
  rewrite Hx. unfold convert, parseUint.
  destruct (strconv_ParseUint _) as [u [e|]]; [reflexivity|].
  unfold SetUint, fits_unsigned. fold n.
  assert (Hm : 0 < 2 ^ n)
    by (apply Z.pow_pos_nonneg; [lia|pose proof (bits_pos (reflect.Kind_of t)); unfold n; lia]).
  split; [reflexivity|]. split.
  - apply Z.mod_pos_bound. exact Hm.
  - intros Hu. apply Z.mod_small. exact Hu.
Qed.

(** ** ParseArgs on the arguments of a request *)

Lemma readable_bulk (ys : list (list byte)) :
  forallb readable (map resp.BulkString ys) = true.
Proof. induction ys; simpl; auto. Qed.

Lemma Next_bulk_string (a : byteArgsReader) (d1 : StreamDecoder)
  (y : list byte) (tail : resp.Parser) (t : reflect.rtype) (n : Z) :
  err (embedded a) = None ->
  StreamDecoder_Len (dec (embedded a)) = (d1, n) -> n <> 0 ->
  sd_Parser d1 = resp.BulkString y :: tail ->
  variant_of t = Some DstString ->
  let d2 := {| sd_Parser := tail; sd_err := None; sd_typ := sd_typ d1;
               sd_cnt := sd_cnt d1 + 1; sd_max := sd_max d1 |} in
  Next (Some t) a
  = ({| embedded := {| dec := d2; err := None; once := once (embedded a);
                       done := done (embedded a) |};
        b := Some y |}, true, Some (VString (string_of_list_byte y)))
  /\ StreamDecoder_Len d2 = (d2, n - 1).
Proof.
  intros He HL Hn Hp Hv d2.
  assert (HD : Decoder_Decode ToBytes (sd_Parser d1)
               = (tail, None, WBytes (Some y)))
    by (rewrite Hp; reflexivity).
  assert (Ht : fst (resp.ParseType (sd_Parser d1)) <> objconv.Error)
    by (rewrite Hp; discriminate).
  pose proof (Next_value ToBytes _ d1 n tail _ He HL Hn Ht HD) as HN.
  assert (Hd : sd_err d1 = None).
  { destruct (sd_err d1) as [e|] eqn:E; [|reflexivity].
    exfalso. apply Hn. eapply Len_sd_err; eauto. }
  destruct (Len_live _ _ _ HL Hd) as [Hk Hm].
  split.
  - change (@Next _ byteArgsReader _) with byteArgsReader_Next.
    unfold byteArgsReader_Next. rewrite HN, parse_convert, Hv. reflexivity.
  - unfold StreamDecoder_Len, d2. simpl.
    destruct (objconv.Type_eqb (sd_typ d1) objconv.Unknown) eqn:Eq;
      [destruct (sd_typ d1); simpl in Eq; congruence|].
    f_equal. lia.
Qed.

Lemma ParseArgs_loop_strings (rest : resp.Parser) (ts : list reflect.rtype) :
  forall (ys : list (list byte)) (a : byteArgsReader) (d1 : StreamDecoder),
    Forall (fun t => variant_of t = Some DstString) ts ->
    (List.length ts <= List.length ys)%nat ->
    err (embedded a) = None ->
    StreamDecoder_Len (dec (embedded a))
    = (d1, Z.of_nat (List.length ys)) ->
    sd_err d1 = None ->
    sd_Parser d1 = map resp.BulkString ys ++ rest ->
    exists (a' : byteArgsReader) (d' : StreamDecoder),
      ParseArgs_loop a (map Some ts)
      = (a', map (fun y => Some (VString (string_of_list_byte y)))
                 (firstn (List.length ts) ys))
      /\ err (embedded a') = None
      /\ StreamDecoder_Len (dec (embedded a'))
         = (d', Z.of_nat (List.length (skipn (List.length ts) ys)))
      /\ sd_err d' = None
      /\ sd_Parser d'
         = map resp.BulkString (skipn (List.length ts) ys) ++ rest
      /\ once (embedded a') = once (embedded a)
      /\ done (embedded a') = done (embedded a).
Proof.
  induction ts as [|t ts IH]; intros ys a d1 Hts Hlen He HL Hd Hp.
  - exists a, d1. simpl. auto 10.
  - destruct ys as [|y ys]; [simpl in Hlen; lia|].
    inversion Hts as [|? ? Ht Hts']; subst.
    assert (Hn : Z.of_nat (List.length (y :: ys)) <> 0)
      by (cbn [List.length]; lia).
    destruct (Next_bulk_string a d1 y (map resp.BulkString ys ++ rest) t _
                He HL Hn Hp Ht) as [HN HL2].
    set (d2 := {| sd_Parser := map resp.BulkString ys ++ rest;
                  sd_err := None; sd_typ := sd_typ d1;
                  sd_cnt := sd_cnt d1 + 1; sd_max := sd_max d1 |}) in *.
    replace (Z.of_nat (List.length (y :: ys)) - 1)
      with (Z.of_nat (List.length ys)) in HL2
      by (cbn [List.length]; lia).
    destruct (IH ys
                {| embedded := {| dec := d2; err := None;
                                  once := once (embedded a);
                                  done := done (embedded a) |};
                   b := Some y |} d2 Hts')
      as [a' [d' [H1 [H2 [H3 [H4 [H5 [H6 H7]]]]]]]]; auto.
    { simpl in Hlen. lia. }
    exists a', d'. cbn [map ParseArgs_loop List.length firstn skipn].
    rewrite HN. cbn [negb]. rewrite H1. auto 10.
Qed.

(** X11.  ParseArgs returns the arguments of a request.  On a
    byteArgsReader created over an array of bulk strings that is followed on
    the connection by [rest], ParseArgs with destinations of string kind, no
    more of them than there are arguments, stores the arguments in order,
    each as the string of its bytes, returns nil, leaves the parser in front
    of [rest] (the arguments that were not asked for are discarded) and sends
    nil on the done channel. *)
Theorem ParseArgs_reads_the_arguments :
  forall (xs : list (list byte)) (rest : resp.Parser)
         (sent : option (list (option error))) (ts : list reflect.rtype),
    Forall (fun t => variant_of t = Some DstString) ts ->
    (List.length ts <= List.length xs)%nat ->
    let r := ParseArgs
               (newByteArgsReader (frame (map resp.BulkString xs) rest) sent)
               (map Some ts) in
    snd (fst r)
    = map (fun y => Some (VString (string_of_list_byte y)))
          (firstn (List.length ts) xs)
    /\ snd r = None
    /\ sd_Parser (dec (embedded (fst (fst r)))) = rest
    /\ done (embedded (fst (fst r)))
       = option_map (fun s => s ++ [None]) sent.
Proof.
  intros xs rest sent ts Hts Hlen r. subst r.
  set (a0 := newByteArgsReader (frame (map resp.BulkString xs) rest) sent).
  destruct (ParseArgs_loop_strings rest ts xs a0
              {| sd_Parser := map resp.BulkString xs ++ rest;
                 sd_err := None; sd_typ := objconv.Array; sd_cnt := 0;
                 sd_max := Z.of_nat (List.length xs) |} Hts Hlen)
    as [a' [d' [H1 [H2 [H3 [H4 [H5 [H6 H7]]]]]]]]; auto.
  { unfold a0, newByteArgsReader, newArgsReader, frame, StreamDecoder_Len,
      StreamDecoder_init, newStreamDecoder. simpl.
    rewrite length_map, Z.sub_0_r. reflexivity. }
  unfold ParseArgs. rewrite H1.
  change (@Close _ byteArgsReader _) with byteArgsReader_Close.
  unfold byteArgsReader_Close.
  assert (Ho : once (embedded a') = false) by (rewrite H6; reflexivity).
  destruct (Close_live rest (embedded a') d'
              (map resp.BulkString (skipn (List.length ts) xs)))
    as [C1 C2]; auto.
  { rewrite length_map. exact H3. }
  { apply readable_bulk. }
  unfold argsReader_Close in *. rewrite Ho in *. cbn [fst snd dec] in *.
  rewrite H2, H7. cbn [fst snd embedded dec done err].
  unfold StreamDecoder_Err. rewrite C1.
  repeat split; auto.
Qed.

End Further_properties.

(** * The properties on concrete streams *)

Import Sample.

(** C1 on the arguments of LRANGE, none of which was read: Close leaves the
    parser at the next request. *)
Lemma Close_first_call_wins_witness :
  let r := newArgsReader lrange (Some []) in
  let d1 := fst (StreamDecoder_Len (dec r)) in
  let rest := [resp.ArrayHeader 1; bulk "PING"] in
  (once r = false
   /\ StreamDecoder_Len (dec r) = (d1, Z.of_nat 3)
   /\ sd_err d1 = None
   /\ resp.skip (sd_Parser d1) 3 = Some rest)
  /\ sd_Parser (dec (fst (argsReader_Close r))) = rest
  /\ StreamDecoder_Err (dec (fst (argsReader_Close r))) = None.
Proof.
  intros r d1 rest.
  split; [repeat split|].
  apply (proj2 (proj2 (proj2 Close_first_call_wins)) r d1 3%nat rest);
    reflexivity.
Defined.

(** C2 on a reply whose second value is an error, after the first value
    was read. *)
Lemma Next_on_RESP_error_witness :
  let a := fst (run [CallNext None] (newByteArgsReader failed_reply None)) in
  let d1 := dec (embedded a) in
  let msg := "ERR no such key"%string in
  let cs := [CallNext None; CallLen; CallClose; CallClose] in
  (err (embedded a) = None
   /\ StreamDecoder_Len (dec (embedded a)) = (d1, 1)
   /\ 1 <> 0
   /\ sd_Parser d1 = [resp.Error msg])
  /\ snd (fst (Next (Some type_int) a)) = false
  /\ err (embedded (fst (fst (Next (Some type_int) a))))
     = Some (RespError msg)
  /\ Forall (fun rep => failing rep
                        /\ closes_with (Some (RespError msg)) rep)
            (snd (run cs (fst (fst (Next (Some type_int) a))))).
Proof.
  intros a d1 msg cs.
  split; [repeat split; discriminate|].
  apply (proj2 Next_on_RESP_error a (Some type_int) d1 1 msg [] cs);
    [reflexivity|reflexivity|discriminate|reflexivity].
Defined.




(** C10: the one value that remains is a RESP error; Next with a nil
    destination returns false. *)
Lemma Next_nil_on_RESP_error :
  let a := newArgsReader [resp.ArrayHeader 1; resp.Error "ERR"] None in
  err a = None
  /\ snd (Len a) = 1
  /\ snd (fst (Next None a)) = false
  /\ snd (Len (fst (fst (Next None a)))) = 0.
Proof. repeat split. Defined.

(** C10 as amended, on a reply whose first value is an array. *)
Lemma Next_nil_discards_witness :
  let a := newArgsReader nested_reply None in
  let d1 := fst (StreamDecoder_Len (dec a)) in
  let a1 := fst (fst (Next None a)) in
  (err a = None
   /\ StreamDecoder_Len (dec a) = (d1, 2)
   /\ 1 <= 2
   /\ fst (resp.ParseType (sd_Parser d1)) <> objconv.Error
   /\ resp.skip (sd_Parser d1) 1 = Some [resp.Integer 7])
  /\ Next None a = (a1, true, None)
  /\ sd_Parser (dec a1) = [resp.Integer 7]
  /\ err a1 = None
  /\ snd (Len a1) = 2 - 1.
Proof.
  intros a d1 a1.
  split; [repeat split; (lia || discriminate)|].
  apply (proj1 Next_nil_discards a d1 2 [resp.Integer 7]);
    [reflexivity|reflexivity|lia|discriminate|reflexivity].
Defined.

(** * The spec-modelled Transport and Server *)

Section Transport_properties.

Context {ext : Extern}.

Import Transport.

Lemma fire_aligned (ev : event) (conn : Connection) :
  aligned conn -> aligned (fire ev conn).
Proof.
  intros Ha. pose proof Ha as [q1 [q2 [Hq [Hr Hs]]]].
  assert (Hpush : forall pc, aligned (push pc conn)).
  { intros pc. exists q1, (q2 ++ [pc]). simpl.
    rewrite Hq, Hr, Hs, map_app, app_assoc. auto. }
  destruct ev as [c cmd| | |]; simpl; try apply Hpush.
  - destruct (requests conn) as [|cmd rest] eqn:E; [exact Ha|].
    destruct q2 as [|pc q2]; [discriminate Hs|]. simpl in Hs.
    injection Hs as -> ->.
    exists (q1 ++ [pc]), q2. simpl.
    rewrite Hq, Hr, map_app, <- app_assoc. auto.
  - destruct (replies conn) as [|frame rest] eqn:E; [exact Ha|].
    destruct (queue conn) as [|pc q] eqn:E'; [exact Ha|].
    destruct q1 as [|pc1 q1]; [discriminate Hr|]. simpl in Hq, Hr.
    injection Hq as -> ->. injection Hr as -> ->.
    exists q1, q2. simpl. auto.
Qed.

Lemma fire_matched (ev : event) (conn : Connection) :
  aligned conn -> matched conn -> matched (fire ev conn).
Proof.
  intros [q1 [q2 [Hq [Hr Hs]]]] Hm. unfold matched in *.
  destruct ev as [c cmd| | |]; simpl; auto.
  - destruct (requests conn); auto.
  - destruct (replies conn) as [|frame rest] eqn:E; auto.
    destruct (queue conn) as [|pc q] eqn:E'; auto. simpl.
    apply Forall_app. split; [assumption|].
    constructor; [|constructor]. simpl.
    destruct q1 as [|pc1 q1]; [discriminate Hr|]. simpl in Hq, Hr.
    injection Hq as -> _. injection Hr as -> _. reflexivity.
Qed.

Lemma fire_order (ev : event) (conn : Connection) :
  map fst (received (fire ev conn)) ++ queue (fire ev conn)
  = (map fst (received conn) ++ queue conn) ++ submitted [ev].
Proof.
  destruct ev as [c cmd| | |]; simpl; rewrite ?app_assoc, ?app_nil_r; auto.
  - destruct (requests conn); reflexivity.
  - destruct (replies conn) as [|frame rest]; auto.
    destruct (queue conn) as [|pc q] eqn:E; simpl; rewrite ?E; auto.
    rewrite map_app, <- app_assoc. reflexivity.
Qed.

Lemma submitted_app (evs1 evs2 : list event) :
  submitted (evs1 ++ evs2) = submitted evs1 ++ submitted evs2.
Proof.
  induction evs1 as [|[] evs1 IH]; simpl; rewrite ?IH; reflexivity.
Qed.

Lemma exchange_invariant (evs : list event) :
  forall conn : Connection,
    aligned conn -> matched conn ->
    aligned (exchange evs conn)
    /\ matched (exchange evs conn)
    /\ map fst (received (exchange evs conn)) ++ queue (exchange evs conn)
       = (map fst (received conn) ++ queue conn) ++ submitted evs.
Proof.
  induction evs as [|ev evs IH]; intros conn Ha Hm.
  - simpl. rewrite app_nil_r. auto.
  - change (exchange (ev :: evs) conn) with (exchange evs (fire ev conn)).
    change (submitted (ev :: evs)) with (submitted ([ev] ++ evs)).
    rewrite submitted_app.
    destruct (IH (fire ev conn) (fire_aligned ev conn Ha)
                (fire_matched ev conn Ha Hm)) as [H1 [H2 H3]].
    split; [assumption|]. split; [assumption|].
    rewrite H3, fire_order, <- app_assoc. reflexivity.
Qed.

Lemma writes_seq (n : nat) :
  forall i : Z,
    writes n i = map (fun k => resp.Integer (i + Z.of_nat k)) (seq 1 n).
Proof.
  induction n as [|n IH]; intros i; [reflexivity|].
  cbn [writes seq map]. rewrite IH, <- (seq_shift n 1), map_map.
  f_equal; try (f_equal; lia). apply map_ext. intros k. f_equal. lia.
Qed.

(** C5.  On one connection shared by any callers and the keepalive of the
    Transport, whatever the order of the events (requests submitted, pings
    submitted, requests answered by the server, replies routed by the
    reader): the calls that have received a reply, followed by those still
    pending, are the calls in the order of their submission, and every call
    has received the reply to its own request.  A caller of
    [LRANGE key 0 i] so receives the stream that announces [i] values and
    holds [1 .. i] in order, for which Len is [i]. *)
Theorem replies_in_submission_order :
  (forall evs : list event,
      let conn := exchange evs idle in
      map fst (received conn) ++ queue conn = submitted evs
      /\ Forall (fun x => snd x = handler (sent (fst x))) (received conn))
  /\ (forall (key : string) (i : Z),
        0 <= i ->
        handler (LRANGE key 0 i)
        = resp.ArrayHeader (Z.to_nat i)
            :: map (fun k => resp.Integer (Z.of_nat k)) (seq 1 (Z.to_nat i))
        /\ snd (Len (newArgsReader (handler (LRANGE key 0 i)) None)) = i).
Proof.
  split.
  - intros evs conn.
    destruct (exchange_invariant evs idle) as [_ [H2 H3]].
    + exists [], []. auto.
    + constructor.
    + split; [exact H3|exact H2].
  - intros key i Hi. split.
    + simpl. rewrite Z.sub_0_r, writes_seq. reflexivity.
    + change (@Len _ argsReader _) with argsReader_Len.
      rewrite Len_new. simpl. lia.
Qed.

End Transport_properties.

Section Server_properties.

Import Server.

Lemma wait_canceled (e : error) (ls : list loop_state)
  (later : list observation) (n : nat) :
  wait {| ctx_err := Some e; loops := ls |} later n = Some (Some e, n).
Proof. destruct later; reflexivity. Qed.

(** The tests "gracefully shutdown" and "cancel a graceful shutdown": a
    server without connections shuts down at once, with the error of the
    context if it is canceled. *)
Lemma Shutdown_fresh_server :
  snd (Shutdown {| accepting := true; connections := [] |} None [])
  = Some (None, 0%nat)
  /\ snd (Shutdown {| accepting := true; connections := [] |}
                   (Some Canceled) [])
     = Some (Some Canceled, 0%nat).
Proof. split; reflexivity. Qed.

(** A Shutdown that is not canceled waits for the dispatch loops. *)
Lemma Shutdown_waits :
  snd (Shutdown {| accepting := true; connections := [Dispatching; Idle] |}
                None
                [ {| ctx_err := None; loops := [WritingReply; Idle] |};
                  {| ctx_err := None; loops := [Idle; Closed] |} ])
  = Some (None, 2%nat).
Proof. reflexivity. Qed.

(** C8.  Shutdown with a context that is already canceled returns the error
    of the context without having waited, whatever the dispatch loops of the
    active connections are doing and whatever happens later; the connections
    are left as they are. *)
Theorem Shutdown_canceled_context :
  forall (srv : Server) (e : error) (later : list observation),
    Shutdown srv (Some e) later
    = ({| accepting := false; connections := connections srv |},
       Some (Some e, 0%nat)).
Proof.
  intros srv e later. unfold Shutdown. rewrite wait_canceled. reflexivity.
Qed.

End Server_properties.

(** C5 on two callers and a keepalive whose events interleave, and on the
    stream of three values. *)
Lemma replies_in_submission_order_witness :
  let evs :=
    [Transport.Submit 1 (Transport.LRANGE "a" 0 1); Transport.Keepalive;
     Transport.Serve; Transport.Submit 2 (Transport.LRANGE "b" 0 2);
     Transport.Deliver; Transport.Serve; Transport.Serve;
     Transport.Deliver; Transport.Deliver] in
  (map (fun x => Transport.caller (fst x))
       (Transport.received (Transport.exchange evs Transport.idle))
   = [Some 1%nat; None; Some 2%nat]
   /\ map snd (Transport.received (Transport.exchange evs Transport.idle))
      = [[resp.ArrayHeader 1; resp.Integer 1];
         [resp.SimpleString "PONG"];
         [resp.ArrayHeader 2; resp.Integer 1; resp.Integer 2]])
  /\ (0 <= 3
      /\ Transport.handler (Transport.LRANGE "k" 0 3)
         = resp.ArrayHeader (Z.to_nat 3)
             :: map (fun k => resp.Integer (Z.of_nat k))
                    (seq 1 (Z.to_nat 3))
      /\ snd (Len (newArgsReader
                     (Transport.handler (Transport.LRANGE "k" 0 3)) None))
         = 3).
Proof.
  intros evs.
  split; [split; reflexivity|].
  split; [lia|].
  apply (proj2 replies_in_submission_order "k"%string 3). lia.
Defined.

(** * The further properties on concrete streams *)

(** X3 after the one value of a stream was read. *)
Lemma Next_fails_when_Len_is_0_witness :
  let a := fst (run [CallNext None]
                  (newByteArgsReader [resp.ArrayHeader 1; bulk "a"] None)) in
  snd (Len a) = 0 /\ snd (fst (Next (Some type_int) a)) = false.
Proof.
  intros a. split; [reflexivity|].
  apply (proj2 Next_fails_when_Len_is_0 [resp.ArrayHeader 1; bulk "a"] None
           [CallNext None] (Some type_int)).
  reflexivity.
Defined.

(** X4 on a request whose first argument is not a number. *)
Lemma Close_reports_the_failure_witness :
  let a := newByteArgsReader [resp.ArrayHeader 2; bulk "x"; bulk "1"] None in
  let a1 := fst (fst (Next (Some type_int) a)) in
  let cs := [CallClose; CallLen; CallNext None; CallClose] in
  snd (fst (Next (Some type_int) a)) = false
  /\ reported (embedded a1) = Some (Errorf "invalid syntax")
  /\ Forall (closes_with (reported (embedded a1))) (snd (run cs a1)).
Proof.
  intros a a1 cs. split; [reflexivity|]. split; [reflexivity|].
  apply (proj2 Close_reports_the_failure
           [resp.ArrayHeader 2; bulk "x"; bulk "1"] None [] cs
           (Some type_int)).
  reflexivity.
Defined.

(** X5 on a request with an argument that is no number and a RESP error
    among its values, followed by the next request. *)
Lemma byteArgsReader_keeps_the_frame_witness :
  let vals := [bulk "key"; resp.Error "ERR"; bulk "10"] in
  let rest := [resp.ArrayHeader 1; bulk "PING"] in
  let cs := [CallNext (Some type_int); CallNext None; CallClose; CallLen] in
  let a := fst (run cs (newByteArgsReader (frame vals rest) (Some []))) in
  forallb readable vals = true
  /\ existsb is_Close cs = true
  /\ sd_Parser (dec (embedded a)) = rest
  /\ done (embedded a) = Some [None].
Proof.
  intros vals rest cs a. split; [reflexivity|]. split; [reflexivity|].
  apply (proj2 (byteArgsReader_keeps_the_frame vals rest (Some []) cs
                  eq_refl)).
  reflexivity.
Defined.

(** X6 on an empty argument list. *)
Lemma ParseArgs_at_end_of_stream_witness :
  let a := newByteArgsReader [resp.ArrayHeader 0] None in
  let d1 := fst (StreamDecoder_Len (dec (embedded a))) in
  (err (embedded a) = None
   /\ StreamDecoder_Len (dec (embedded a)) = (d1, 0)
   /\ sd_err d1 = None)
  /\ snd (fst (ParseArgs a [Some type_int; Some type_string])) = [None]
  /\ snd (ParseArgs a [Some type_int; Some type_string]) = None
  /\ (snd (fst (Int a)), snd (Int a)) = (0, None)
  /\ (snd (fst (Int64 a)), snd (Int64 a)) = (0, None)
  /\ (snd (fst (String a)), snd (String a)) = (EmptyString, None).
Proof.
  intros a d1. split; [repeat split|].
  apply (proj2 ParseArgs_at_end_of_stream a d1 (Some type_int)
           [Some type_string]); reflexivity.
Defined.

(** X7 on a reply that is an error. *)
Lemma ParseArgs_on_RESP_error_witness :
  let a := newArgsReader [resp.Error "ERR unknown command"] None in
  let d1 := fst (StreamDecoder_Len (dec a)) in
  let msg := "ERR unknown command"%string in
  (err a = None
   /\ StreamDecoder_Len (dec a) = (d1, 1)
   /\ 1 <> 0
   /\ sd_Parser d1 = [resp.Error msg])
  /\ snd (fst (ParseArgs a [None])) = [None]
  /\ snd (ParseArgs a [None]) = Some (RespError msg)
  /\ (snd (fst (Int a)), snd (Int a)) = (0, Some (RespError msg))
  /\ (snd (fst (Int64 a)), snd (Int64 a)) = (0, Some (RespError msg))
  /\ (snd (fst (String a)), snd (String a))
     = (EmptyString, Some (RespError msg)).
Proof.
  intros a d1 msg. split; [repeat split; discriminate|].
  apply (proj1 ParseArgs_on_RESP_error a d1 1 msg [] None []);
    [reflexivity|reflexivity|discriminate|reflexivity].
Defined.

(** X8 on the arguments of LRANGE: the key is no number, the offset is. *)
Lemma Next_stores_iff_true_witness :
  let a := newByteArgsReader lrange None in
  let a1 := fst (fst (Next None a)) in
  (snd (fst (Next (Some type_int) a)) = false
   /\ snd (Next (Some type_int) a) = None)
  /\ (snd (fst (Next (Some type_int) a1)) = true
      /\ Some type_int <> None
      /\ snd (Next (Some type_int) a1) <> None).
Proof.
  intros a a1.
  split.
  - split; [reflexivity|].
    apply (proj1 (Next_stores_iff_true a (Some type_int))). reflexivity.
  - split; [reflexivity|]. split; [discriminate|].
    apply (proj2 (proj2 (Next_stores_iff_true a1 (Some type_int))));
      [reflexivity|discriminate].
Defined.

(** X9 on the argument 300 and a destination of type int8, which takes
    44. *)
Lemma Next_signed_wraps_witness :
  let a := newByteArgsReader [resp.ArrayHeader 1; bulk "300"] None in
  let t := {| reflect.Kind_of := reflect.Int8;
              reflect.Elem_Kind := reflect.Invalid;
              reflect.String_of := "int8" |} in
  let r1 := fst (fst (argsReader_Next ToBytes (embedded a))) in
  let w := snd (argsReader_Next ToBytes (embedded a)) in
  (argsReader_Next ToBytes (embedded a) = (r1, true, w)
   /\ variant_of t = Some DstSigned)
  /\ objutil_ParseInt (list_byte_of_string "300") = (300, None)
  /\ snd (Next (Some t) a) = Some (VInt 44)
  /\ exists v : Z,
       Next (Some t) a
       = ({| embedded := r1; b := Some (list_byte_of_string "300") |},
          true, Some (VInt v))
       /\ fits_signed 8 v
       /\ (v - 300) mod 2 ^ 8 = 0
       /\ (fits_signed 8 300 -> v = 300).
Proof.
  intros a t r1 w. split; [split; reflexivity|].
  split; [reflexivity|]. split; [reflexivity|].
  apply (Next_signed_wraps a t r1 w); reflexivity.
Defined.

(** X10 on the argument 256 and a destination of type uint8, which takes
    0. *)
Lemma Next_unsigned_wraps_witness :
  let a := newByteArgsReader [resp.ArrayHeader 1; bulk "256"] None in
  let t := {| reflect.Kind_of := reflect.Uint8;
              reflect.Elem_Kind := reflect.Invalid;
              reflect.String_of := "uint8" |} in
  let r1 := fst (fst (argsReader_Next ToBytes (embedded a))) in
  let w := snd (argsReader_Next ToBytes (embedded a)) in
  (argsReader_Next ToBytes (embedded a) = (r1, true, w)
   /\ variant_of t = Some DstUnsigned)
  /\ strconv_ParseUint "256" = (256, None)
  /\ Next (Some t) a
     = ({| embedded := r1; b := Some (list_byte_of_string "256") |},
        true, Some (VUint (256 mod 2 ^ 8)))
  /\ fits_unsigned 8 (256 mod 2 ^ 8)
  /\ (fits_unsigned 8 256 -> 256 mod 2 ^ 8 = 256).
Proof.
  intros a t r1 w. split; [split; reflexivity|].
  split; [reflexivity|].
  apply (Next_unsigned_wraps a t r1 w); reflexivity.
Defined.

(** X11 on the request [SET k v] read into two strings, a third argument
    being left unread. *)
Lemma ParseArgs_reads_the_arguments_witness :
  let xs := map list_byte_of_string ["k"; "v"; "extra"]%string in
  let rest := [resp.ArrayHeader 1; bulk "PING"] in
  let ts := [type_string; type_string] in
  let r := ParseArgs
             (newByteArgsReader (frame (map resp.BulkString xs) rest)
                                (Some []))
             (map Some ts) in
  (Forall (fun t => variant_of t = Some DstString) ts
   /\ (List.length ts <= List.length xs)%nat)
  /\ snd (fst r) = [Some (VString "k"); Some (VString "v")]
  /\ snd r = None
  /\ sd_Parser (dec (embedded (fst (fst r)))) = rest
  /\ done (embedded (fst (fst r))) = Some [None].
Proof.
  intros xs rest ts r.
  assert (H1 : Forall (fun t => variant_of t = Some DstString) ts)
    by (repeat constructor).
  assert (H2 : (List.length ts <= List.length xs)%nat) by (simpl; lia).
  split; [split; assumption|].
  apply (ParseArgs_reads_the_arguments xs rest (Some []) ts H1 H2).
Defined.
